(** * ManifoldMind: the three manifold operators of [manifold_operators.cpp]

    The file embeds [calculate_resonance], [calculate_coherence] and
    [calculate_delta_i] together with the three JNI entry points that
    copy the caller's arrays and call them.

    The C++ code computes on [float].  The operators are written once,
    over an interface [FloatArith] that lists exactly the operations the
    source uses, and the interface is instantiated twice:

    - [B32]: IEEE-754 binary32 ([prec = 24], [emax = 128]) on top of the
      executable specification [SpecFloat] of the standard library, with
      round-to-nearest-even, signed zeros, infinities and NaN.  Every
      operation is rounded on its own, as ISO C++ evaluates [float]
      expressions when [FLT_EVAL_METHOD] is 0 and products are not fused
      into the following addition.  NaN carries no payload.  [spec_float]
      also contains mantissa/exponent pairs no [float] variable can hold
      (see [valid32]); the theorems below hold for those as well.
    - [Exact]: the real numbers, for the statements the specification makes
      about exact arithmetic.

    A [std::vector<float>] is a [list]; [size()] is [length]; a [size_t]
    index is a [nat]. *)

From Stdlib Require Import List Arith ZArith Bool Lia SpecFloat.
From Stdlib Require Import Reals Lra Psatz.
Import ListNotations.

(** ** The arithmetic the source relies on *)

Class FloatArith (F : Type) : Type := {
  fzero : F;                 (* the literal 0.0f *)
  fone : F;                  (* the literal 1.0f *)
  feps : F;                  (* the literal 1e-9f *)
  fadd : F -> F -> F;        (* operator+ *)
  fsub : F -> F -> F;        (* operator- *)
  fmul : F -> F -> F;        (* operator* *)
  fdiv : F -> F -> F;        (* operator/ *)
  fsqrt : F -> F;            (* std::sqrt *)
  fabs : F -> F;             (* std::abs *)
  fltb : F -> F -> bool;     (* operator< *)
  of_size : nat -> F         (* the implicit conversion size_t -> float *)
}.

Section Operators.
Context {F : Type} `{FloatArith F}.

(** [std::min(a, b)] is [(b < a) ? b : a]. *)
Definition std_min (a b : F) : F := if fltb b a then b else a.

(** [v[i]]: every index the loops below produce is smaller than [size()],
    so the default is never read. *)
Definition at_index (v : list F) (i : nat) : F := nth i v fzero.

(** *** Operator 7: resonance *)

(** The three accumulators of the loop. *)
Record resonance_acc : Type := mk_acc {
  dot_product : F;
  norm_a : F;
  norm_b : F
}.

(** One iteration of the loop body at index [i]. *)
Definition resonance_body (input_embedding manifold_centroid : list F)
    (st : resonance_acc) (i : nat) : resonance_acc :=
  let x := at_index input_embedding i in
  let c := at_index manifold_centroid i in
  {| dot_product := fadd (dot_product st) (fmul x c);
     norm_a := fadd (norm_a st) (fmul x x);
     norm_b := fadd (norm_b st) (fmul c c) |}.

(** The same update on the pair of elements read at one index; the proofs
    use it to pass from the index loop to the element-wise sums. *)
Definition resonance_elem (st : resonance_acc) (xc : F * F) : resonance_acc :=
  {| dot_product := fadd (dot_product st) (fmul (fst xc) (snd xc));
     norm_a := fadd (norm_a st) (fmul (fst xc) (fst xc));
     norm_b := fadd (norm_b st) (fmul (snd xc) (snd xc)) |}.

(** The state after [for (i = 0; i < size(); ++i)]. *)
Definition resonance_loop (input_embedding manifold_centroid : list F)
    : resonance_acc :=
  fold_left (resonance_body input_embedding manifold_centroid)
    (seq 0 (length input_embedding))
    {| dot_product := fzero; norm_a := fzero; norm_b := fzero |}.

Definition calculate_resonance (input_embedding manifold_centroid : list F)
    : F :=
  if negb (length input_embedding =? length manifold_centroid)
     || (length input_embedding =? 0)
  then fzero
  else
    let st := resonance_loop input_embedding manifold_centroid in
    fdiv (dot_product st)
      (fadd (fmul (fsqrt (norm_a st)) (fsqrt (norm_b st))) feps).

(** *** Operator 11: coherence *)

Definition calculate_coherence (embedding : list F) : F :=
  if length embedding =? 0 then fzero
  else
    let sum := fold_left (fun sum val => fadd sum (fabs val)) embedding fzero in
    let score := fdiv sum (of_size (length embedding)) in
    std_min fone score.

(** *** Identity stability metric *)

Definition calculate_delta_i (history_resonance : list F) : F :=
  if length history_resonance <? 2 then fone
  else
    let sum_diff :=
      fold_left
        (fun sum_diff i =>
           fadd sum_diff
             (fabs (fsub (at_index history_resonance i)
                         (at_index history_resonance (i - 1)))))
        (seq 1 (length history_resonance - 1)) fzero in
    fsub fone (fdiv sum_diff (of_size (length history_resonance - 1))).

(** *** The JNI boundary

    A [jfloatArray] is a managed array; [GetFloatArrayElements] hands out
    a buffer holding exactly its elements.  Building
    [std::vector<float>(p, p + len)] reads [len] floats from the buffer:
    reading past its end is an out-of-range access, which the model makes
    visible as [OutOfRangeRead]. *)

Definition jfloatArray : Type := list F.

Inductive jni_outcome : Type :=
| Returns (score : F)
| OutOfRangeRead.

Definition GetFloatArrayElements (arr : jfloatArray) : list F := arr.
Definition GetArrayLength (arr : jfloatArray) : nat := length arr.

(** [std::vector<float>(buf, buf + len)]. *)
Definition vector_of_range (buf : list F) (len : nat) : option (list F) :=
  if len <=? length buf then Some (firstn len buf) else None.

Definition Java_com_manifold_app_NativeLib_operator7Resonance
    (j_embedding j_centroid : jfloatArray) : jni_outcome :=
  let flt_emb := GetFloatArrayElements j_embedding in
  let flt_cen := GetFloatArrayElements j_centroid in
  let len := GetArrayLength j_embedding in
  match vector_of_range flt_emb len with
  | None => OutOfRangeRead
  | Some input_vec =>
      match vector_of_range flt_cen len with
      | None => OutOfRangeRead
      | Some centroid_vec =>
          Returns (calculate_resonance input_vec centroid_vec)
      end
  end.

Definition Java_com_manifold_app_NativeLib_operator11Coherence
    (j_embedding : jfloatArray) : jni_outcome :=
  let flt_emb := GetFloatArrayElements j_embedding in
  let len := GetArrayLength j_embedding in
  match vector_of_range flt_emb len with
  | None => OutOfRangeRead
  | Some embedding => Returns (calculate_coherence embedding)
  end.

Definition Java_com_manifold_app_NativeLib_getDeltaI
    (j_history : jfloatArray) : jni_outcome :=
  let flt_hist := GetFloatArrayElements j_history in
  let len := GetArrayLength j_history in
  match vector_of_range flt_hist len with
  | None => OutOfRangeRead
  | Some history => Returns (calculate_delta_i history)
  end.

(** *** The formulas of the specification

    These follow the specification's words, not the code.  Sums run in
    index order, starting from zero, as a sum of floats has to fix an
    order. *)

Definition fsum (l : list F) : F := fold_left fadd l fzero.

Fixpoint pointwise_mul (a b : list F) : list F :=
  match a, b with
  | x :: a', y :: b' => fmul x y :: pointwise_mul a' b'
  | _, _ => []
  end.

(** dot(a, b) *)
Definition dot (a b : list F) : F := fsum (pointwise_mul a b).

(** The Euclidean norm of [a]. *)
Definition norm (a : list F) : F := fsqrt (dot a a).

(** dot(a,b) / (norm(a) * norm(b) + eps) *)
Definition cosine_similarity_eps (a b : list F) : F :=
  fdiv (dot a b) (fadd (fmul (norm a) (norm b)) feps).

(** mean(|v_i|) *)
Definition mean_abs (v : list F) : F :=
  fdiv (fsum (map fabs v)) (of_size (length v)).

(** The successive differences |h[i] - h[i-1]|, i = 1 .. n-1. *)
Fixpoint successive_diffs (h : list F) : list F :=
  match h with
  | prev :: (cur :: _) as rest => fabs (fsub cur prev) :: successive_diffs rest
  | _ => []
  end.

(** 1.0 - (sum of the successive differences) / (n - 1) *)
Definition stability_formula (h : list F) : F :=
  fsub fone (fdiv (fsum (successive_diffs h)) (of_size (length h - 1))).
End Operators.

Arguments jni_outcome F : clear implicits.
Arguments resonance_acc F : clear implicits.

(** ** The operators with every vector access checked

    [operator[]] does not check its index.  The definitions below are the
    two indexing loops again, with each read returning [None] outside the
    vector, so that staying in range becomes a statement about the code. *)

Section CheckedReads.
Context {F : Type} `{FloatArith F}.

(** [v[i]] with the bounds check [operator[]] leaves out: [None] is an
    access outside the vector. *)
Definition read_index (v : list F) (i : nat) : option F := nth_error v i.

(** [i - 1] on [size_t]: at [i = 0] the subtraction wraps around to the
    largest [size_t], an index no vector has. *)
Definition index_before (i : nat) : option nat :=
  match i with
  | 0 => None
  | S j => Some j
  end.

Definition resonance_body_checked (input_embedding manifold_centroid : list F)
    (st : option (resonance_acc F)) (i : nat) : option (resonance_acc F) :=
  match st, read_index input_embedding i, read_index manifold_centroid i with
  | Some st, Some x, Some c =>
      Some {| dot_product := fadd (dot_product st) (fmul x c);
              norm_a := fadd (norm_a st) (fmul x x);
              norm_b := fadd (norm_b st) (fmul c c) |}
  | _, _, _ => None
  end.

Definition calculate_resonance_checked
    (input_embedding manifold_centroid : list F) : option F :=
  if negb (length input_embedding =? length manifold_centroid)
     || (length input_embedding =? 0)
  then Some fzero
  else
    match fold_left (resonance_body_checked input_embedding manifold_centroid)
            (seq 0 (length input_embedding))
            (Some {| dot_product := fzero; norm_a := fzero; norm_b := fzero |})
    with
    | Some st =>
        Some (fdiv (dot_product st)
                (fadd (fmul (fsqrt (norm_a st)) (fsqrt (norm_b st))) feps))
    | None => None
    end.

Definition delta_body_checked (history_resonance : list F)
    (sum_diff : option F) (i : nat) : option F :=
  match sum_diff, read_index history_resonance i, index_before i with
  | Some sum_diff, Some cur, Some j =>
      match read_index history_resonance j with
      | Some prev => Some (fadd sum_diff (fabs (fsub cur prev)))
      | None => None
      end
  | _, _, _ => None
  end.

Definition calculate_delta_i_checked (history_resonance : list F) : option F :=
  if length history_resonance <? 2 then Some fone
  else
    match fold_left (delta_body_checked history_resonance)
            (seq 1 (length history_resonance - 1)) (Some fzero)
    with
    | Some sum_diff =>
        Some (fsub fone
                (fdiv sum_diff (of_size (length history_resonance - 1))))
    | None => None
    end.
End CheckedReads.

(** ** Binary32 *)

Module B32.
Definition prec : Z := 24.
Definition emax : Z := 128.

Definition float32 : Type := spec_float.

(** The finite float [m * 2^e]. *)
Definition pos_float (m : positive) (e : Z) : float32 := S754_finite false m e.

Definition zero32 : float32 := S754_zero false.
Definition one32 : float32 := pos_float 8388608 (-23).
(** [1e-9f] is 0x3089705F, that is 9007199 * 2^-53. *)
Definition eps32 : float32 := pos_float 9007199 (-53).

(** An integer converted to the nearest float, ties to even. *)
Definition of_Z (z : Z) : float32 := binary_normalize prec emax z 0 false.

#[export] Instance arith32 : FloatArith float32 := {
  fzero := zero32;
  fone := one32;
  feps := eps32;
  fadd := SFadd prec emax;
  fsub := SFsub prec emax;
  fmul := SFmul prec emax;
  fdiv := SFdiv prec emax;
  fsqrt := SFsqrt prec emax;
  fabs := SFabs;
  fltb := SFltb;
  of_size := fun n => of_Z (Z.of_nat n)
}.

(** [x <= y] on floats; false as soon as one side is NaN. *)
Definition le32 (x y : float32) : Prop := SFleb x y = true.

Definition is_nan (x : float32) : bool :=
  match x with S754_nan => true | _ => false end.

(** Zero or a finite non-zero number: neither NaN nor an infinity. *)
Definition is_finite (x : float32) : bool :=
  match x with
  | S754_zero _ | S754_finite _ _ _ => true
  | _ => false
  end.

(** NaN, or a value whose sign bit is [s]. *)
Definition sign_or_nan (s : bool) (x : float32) : bool :=
  match x with
  | S754_nan => true
  | S754_zero s' | S754_infinity s' | S754_finite s' _ _ => Bool.eqb s s'
  end.

Definition sign_clear (x : float32) : bool := sign_or_nan false x.

(** [+0.0], a positive finite number or [+infinity]. *)
Definition nonneg (x : float32) : bool := sign_clear x && negb (is_nan x).

(** The number of low bits rounding drops from the mantissa [m] at
    exponent [e]. *)
Definition dropped (m e : Z) : Z :=
  Z.max 0 (fexp prec emax (Zdigits2 m + e) - e).

(** The last step of [binary_round_aux]: a mantissa and an exponent
    become a float, an exponent above 104 overflowing to infinity. *)
Definition pack (s : bool) (m e : Z) : float32 :=
  match m with
  | Z0 => S754_zero s
  | Zpos m2 => if (e <=? 104)%Z then S754_finite s m2 e else S754_infinity s
  | Zneg _ => S754_nan
  end.

(** What every finite result of rounding satisfies: at most 24 digits
    and an exponent of at most 104. *)
Definition in_range (x : float32) : Prop :=
  match x with
  | S754_finite _ m e => (Zdigits2 (Zpos m) <= 24 /\ e <= 104)%Z
  | _ => True
  end.

(** A value a [float] variable can hold. *)
Definition valid32 (x : float32) : bool := valid_binary prec emax x.

(** A vector of length [n] filled with [0.0f]. *)
Definition zero_vector (n : nat) : list float32 := repeat zero32 n.
End B32.

(** ** Exact arithmetic *)

Module Exact.
#[export] Instance arithR : FloatArith R := {
  fzero := 0%R;
  fone := 1%R;
  feps := (/ 1000000000)%R;
  fadd := Rplus;
  fsub := Rminus;
  fmul := Rmult;
  fdiv := Rdiv;
  fsqrt := sqrt;
  fabs := Rabs;
  fltb := fun x y => if Rlt_dec x y then true else false;
  of_size := INR
}.
End Exact.

(** ** Sample inputs *)

Module Samples.
Import B32.

(** [1, 2] against [1, 2, 3]: the lengths differ. *)
Definition short_embedding : list float32 := [of_Z 1; of_Z 2].
Definition long_centroid : list float32 := [of_Z 1; of_Z 2; of_Z 3].

(** [3, 4] and [4, 3]. *)
Definition vec_3_4 : list float32 := [of_Z 3; of_Z 4].
Definition vec_4_3 : list float32 := [of_Z 4; of_Z 3].

(** [2, 2, 2] *)
Definition twos : list float32 := [of_Z 2; of_Z 2; of_Z 2].

(** [0.5, 0.5, 0.5] *)
Definition half32 : float32 := pos_float 8388608 (-24).
Definition constant_history : list float32 := [half32; half32; half32].

(** [0, 5] *)
Definition erratic_history : list float32 := [of_Z 0; of_Z 5].


(** [NaN, 0] *)
Definition nan_history : list float32 := [S754_nan; zero32].

(** The one-element centroid [2^100], a finite float whose square
    exceeds the largest float. *)
Definition huge_centroid : list float32 := [pos_float 8388608 77].

(** Arrays handed to the JNI entry point. *)
Definition array_1_2_3 : jfloatArray (F := float32) :=
  [of_Z 1; of_Z 2; of_Z 3].
Definition array_1_2 : jfloatArray (F := float32) := [of_Z 1; of_Z 2].
Definition array_1_0 : jfloatArray (F := float32) := [of_Z 1; of_Z 0].
Definition array_1_0_7 : jfloatArray (F := float32) :=
  [of_Z 1; of_Z 0; of_Z 7].

(** [1, 0] *)
Definition unit_x : list float32 := [of_Z 1; of_Z 0].

(** [1.0, 0.0] as a history *)
Definition one_zero_history : list float32 := [of_Z 1; of_Z 0].

(** [0.1, -0.2, 0.3], each the nearest float *)
Definition tenths : list float32 :=
  [pos_float 13421773 (-27); S754_finite true 13421773 (-26);
   pos_float 10066330 (-25)].

(** [0.2f] *)
Definition fifth32 : float32 := pos_float 13421773 (-26).

(** Real vectors. *)
Definition real_3_4 : list R := [3%R; 4%R].
Definition real_4_3 : list R := [4%R; 3%R].
End Samples.

(** ** Classes of binary32 values *)

Module Classes32.
Import B32.

(** NaN or [+infinity]: what a sum of absolute values becomes once a
    component is not finite. *)
Definition nan_or_pinf (x : float32) : bool :=
  match x with
  | S754_nan | S754_infinity false => true
  | _ => false
  end.

(** A positive number, finite or infinite. *)
Definition positive32 (x : float32) : bool :=
  match x with
  | S754_infinity false | S754_finite false _ _ => true
  | _ => false
  end.

(** NaN or a positive number: anything but a zero or a negative number. *)
Definition nan_or_positive (x : float32) : bool :=
  is_nan x || positive32 x.
End Classes32.

(** ** More sample inputs *)

Module MoreSamples.
Import B32.

(** [NaN, 1] and [1, 2] *)
Definition nan_embedding : list float32 := [S754_nan; of_Z 1].
Definition plain_centroid : list float32 := [of_Z 1; of_Z 2].

(** [1, +infinity] *)
Definition infinite_embedding : list float32 := [of_Z 1; S754_infinity false].

(** A one-element tail appended to a centroid array. *)
Definition tail_7 : jfloatArray (F := float32) := [of_Z 7].

(** The real history [0, 1, -1]. *)
Definition real_history : list R := [0%R; 1%R; (-1)%R].

(** The real one-element vectors [-1] and [1]. *)
Definition real_minus_one : list R := [(-1)%R].
Definition real_one : list R := [1%R].
End MoreSamples.

(** * Properties that hold for every arithmetic *)

Section OperatorFacts.
Context {F : Type} `{FloatArith F}.

(** ** Reading a vector by index *)

Lemma at_index_middle (p : list F) (x : F) (rest : list F) :
  at_index (p ++ x :: rest) (length p) = x.
Proof.
  unfold at_index. rewrite app_nth2 by lia.
  now rewrite Nat.sub_diag.
Qed.

Lemma at_index_next (p : list F) (x y : F) (rest : list F) :
  at_index (p ++ x :: y :: rest) (S (length p)) = y.
Proof.
  unfold at_index. rewrite app_nth2 by lia.
  now replace (S (length p) - length p) with 1 by lia.
Qed.

(** The loops stay inside the vectors they read. *)
Lemma resonance_indices_in_range (a b : list F) :
  length a = length b ->
  Forall (fun i => i < length a /\ i < length b) (seq 0 (length a)).
Proof.
  intros Hab. apply Forall_forall. intros i Hi%in_seq. lia.
Qed.

Lemma delta_indices_in_range (h : list F) :
  Forall (fun i => i - 1 < i /\ i < length h) (seq 1 (length h - 1)).
Proof. apply Forall_forall. intros i Hi%in_seq. lia. Qed.

Lemma snoc_app (p : list F) (x : F) (rest : list F) :
  p ++ x :: rest = (p ++ [x]) ++ rest.
Proof. now rewrite <- app_assoc. Qed.

Lemma length_snoc (p : list F) (x : F) : length (p ++ [x]) = S (length p).
Proof. rewrite length_app. simpl. lia. Qed.

(** ** The resonance loop, element by element *)

Lemma resonance_index_loop (a b pa pb : list F) (st : resonance_acc F) :
  length pa = length pb ->
  length a = length b ->
  fold_left (resonance_body (pa ++ a) (pb ++ b)) (seq (length pa) (length a)) st
  = fold_left resonance_elem (combine a b) st.
Proof.
  revert b pa pb st.
  induction a as [|x a IH]; intros [|c b] pa pb st Hp Hab; simpl in Hab;
    try discriminate; [reflexivity|].
  cbn [length seq fold_left combine].
  assert (Hstep : resonance_body (pa ++ x :: a) (pb ++ c :: b) st (length pa)
                  = resonance_elem st (x, c)).
  { unfold resonance_body, resonance_elem. cbn [fst snd].
    rewrite at_index_middle. rewrite Hp at 1 2 3.
    now rewrite at_index_middle. }
  rewrite Hstep, (snoc_app pa), (snoc_app pb), <- (length_snoc pa x).
  apply IH; [rewrite !length_snoc|]; lia.
Qed.

Lemma resonance_elem_fold (a b : list F) (st : resonance_acc F) :
  length a = length b ->
  fold_left resonance_elem (combine a b) st
  = {| dot_product := fold_left fadd (pointwise_mul a b) (dot_product st);
       norm_a := fold_left fadd (pointwise_mul a a) (norm_a st);
       norm_b := fold_left fadd (pointwise_mul b b) (norm_b st) |}.
Proof.
  revert b st.
  induction a as [|x a IH]; intros [|c b] st Hab; simpl in Hab;
    try discriminate.
  - now destruct st.
  - cbn [combine fold_left pointwise_mul]. rewrite IH by lia. reflexivity.
Qed.

Lemma resonance_loop_sums (a b : list F) :
  length a = length b ->
  resonance_loop a b
  = {| dot_product := dot a b; norm_a := dot a a; norm_b := dot b b |}.
Proof.
  intros Hab. unfold resonance_loop.
  rewrite (resonance_index_loop a b [] [] _ eq_refl Hab).
  now rewrite resonance_elem_fold.
Qed.

Lemma resonance_guard_passes (a b : list F) :
  length a = length b -> a <> [] ->
  negb (length a =? length b) || (length a =? 0) = false.
Proof.
  intros Hab Hne. rewrite <- Hab, Nat.eqb_refl. simpl.
  apply Nat.eqb_neq. destruct a; [congruence | discriminate].
Qed.

Lemma resonance_guard_fires (a b : list F) :
  length a <> length b \/ a = [] \/ b = [] ->
  negb (length a =? length b) || (length a =? 0) = true.
Proof.
  intros Hg. destruct (Nat.eqb_spec (length a) (length b)) as [Heq|Hneq];
    [|reflexivity].
  simpl. apply Nat.eqb_eq.
  destruct Hg as [Hn|[->| ->]]; [contradiction|reflexivity|exact Heq].
Qed.

Lemma resonance_unfold (a b : list F) :
  length a = length b -> a <> [] ->
  calculate_resonance a b = cosine_similarity_eps a b.
Proof.
  intros Hab Hne. unfold calculate_resonance, cosine_similarity_eps, norm.
  rewrite resonance_guard_passes by assumption.
  now rewrite resonance_loop_sums.
Qed.

Lemma pointwise_mul_comm (a b : list F) :
  (forall x y, fmul x y = fmul y x) ->
  pointwise_mul a b = pointwise_mul b a.
Proof.
  intros Hc. revert b.
  induction a as [|x a IH]; intros [|y b]; try reflexivity.
  simpl. now rewrite IH, Hc.
Qed.

Lemma resonance_symmetric_of_mul_comm (a b : list F) :
  (forall x y, fmul x y = fmul y x) ->
  calculate_resonance a b = calculate_resonance b a.
Proof.
  intros Hc.
  destruct (Nat.eq_dec (length a) (length b)) as [Hab|Hab].
  - destruct a as [|x a].
    + destruct b; [reflexivity|discriminate].
    + rewrite !resonance_unfold; try congruence.
      * unfold cosine_similarity_eps, dot.
        now rewrite (pointwise_mul_comm (x :: a) b Hc), (Hc (norm (x :: a))).
      * intros ->. discriminate.
  - unfold calculate_resonance.
    destruct (Nat.eqb_spec (length a) (length b)); [contradiction|].
    destruct (Nat.eqb_spec (length b) (length a)); [congruence|reflexivity].
Qed.

(** ** The coherence loop *)

Lemma abs_sum_fold (v : list F) (acc : F) :
  fold_left (fun sum val => fadd sum (fabs val)) v acc
  = fold_left fadd (map fabs v) acc.
Proof.
  revert acc. induction v as [|x v IH]; intros acc; [reflexivity|].
  simpl. apply IH.
Qed.

Lemma coherence_nonempty (v : list F) :
  v <> [] -> calculate_coherence v = std_min fone (mean_abs v).
Proof.
  intros Hne. unfold calculate_coherence, mean_abs, fsum.
  destruct v as [|x v]; [congruence|].
  cbn [length Nat.eqb]. now rewrite abs_sum_fold.
Qed.

(** ** The stability loop *)

Lemma delta_index_loop (rest p : list F) (prev acc : F) :
  fold_left
    (fun sum_diff i =>
       fadd sum_diff
         (fabs (fsub (at_index (p ++ prev :: rest) i)
                     (at_index (p ++ prev :: rest) (i - 1)))))
    (seq (S (length p)) (length rest)) acc
  = fold_left fadd (successive_diffs (prev :: rest)) acc.
Proof.
  revert p prev acc.
  induction rest as [|cur rest IH]; intros p prev acc; [reflexivity|].
  cbn [length seq fold_left successive_diffs].
  replace (S (length p) - 1) with (length p) by lia.
  rewrite at_index_middle, at_index_next.
  rewrite (snoc_app p prev), <- (length_snoc p prev).
  apply IH.
Qed.

Lemma delta_loop_sum (h : list F) :
  2 <= length h ->
  calculate_delta_i h = stability_formula h.
Proof.
  intros Hlen. unfold calculate_delta_i, stability_formula.
  destruct (Nat.ltb_spec (length h) 2) as [Hlt|_]; [lia|].
  destruct h as [|prev rest]; [simpl in Hlen; lia|].
  replace (length (prev :: rest) - 1) with (length rest) by (simpl; lia).
  now rewrite (delta_index_loop rest [] prev fzero).
Qed.

(** ** The boundary copies *)

Lemma vector_of_range_whole (buf : list F) :
  vector_of_range buf (length buf) = Some buf.
Proof.
  unfold vector_of_range. rewrite Nat.leb_refl. now rewrite firstn_all.
Qed.
End OperatorFacts.

Import B32.

(** * Binary32: rounding *)

Section Rounding.
Local Open Scope Z_scope.

Lemma fexp32 x : fexp prec emax x = Z.max (x - 24) (-149).
Proof. reflexivity. Qed.

(** ** Counting the binary digits of a mantissa *)

Lemma digits2_pos_size p : digits2_pos p = Pos.size p.
Proof. induction p; simpl; congruence. Qed.

Lemma Zdigits2_log2 p : Zdigits2 (Zpos p) = Z.log2 (Zpos p) + 1.
Proof.
  unfold Zdigits2. rewrite digits2_pos_size.
  destruct p; simpl; lia.
Qed.

Lemma Zdigits2_bounds z :
  0 < z -> 2 ^ (Zdigits2 z - 1) <= z < 2 ^ Zdigits2 z.
Proof.
  intros Hz. destruct z as [|p|p]; try lia.
  rewrite Zdigits2_log2.
  replace (Z.log2 (Z.pos p) + 1 - 1) with (Z.log2 (Z.pos p)) by lia.
  pose proof (Z.log2_spec (Zpos p) Hz). unfold Z.succ in *. lia.
Qed.

Lemma Zdigits2_nonneg z : 0 <= Zdigits2 z.
Proof. destruct z; simpl; lia. Qed.

Lemma Zdigits2_pos z : 0 < z -> 0 < Zdigits2 z.
Proof. destruct z; simpl; lia. Qed.

Lemma Zdigits2_le_iff z k :
  0 < z -> 0 <= k -> (Zdigits2 z <= k <-> z < 2 ^ k).
Proof.
  intros Hz Hk. destruct z as [|p|p]; try lia.
  rewrite Zdigits2_log2.
  pose proof (Z.log2_lt_pow2 (Zpos p) k Hz). lia.
Qed.

Lemma Zdigits2_unique z d :
  2 ^ (d - 1) <= z < 2 ^ d -> 0 < d -> Zdigits2 z = d.
Proof.
  intros Hb Hd.
  assert (Hz : 0 < z) by (pose proof (Z.pow_pos_nonneg 2 (d - 1)); lia).
  destruct z as [|p|p]; try lia.
  rewrite Zdigits2_log2.
  assert (Z.log2 (Zpos p) = d - 1); [|lia].
  apply Z.log2_unique; [lia|]. replace (Z.succ (d - 1)) with d by lia. lia.
Qed.

Lemma Zdigits2_shiftr z n :
  0 <= z -> 0 <= n -> Zdigits2 (Z.shiftr z n) = Z.max 0 (Zdigits2 z - n).
Proof.
  intros Hz Hn.
  destruct (Z.eq_dec z 0) as [->|Hz0].
  { rewrite Z.shiftr_0_l. simpl. lia. }
  assert (Hzp : 0 < z) by lia.
  pose proof (Zdigits2_bounds z Hzp) as [Hlo Hhi].
  pose proof (Zdigits2_pos z Hzp) as Hd.
  rewrite Z.shiftr_div_pow2 by lia.
  destruct (Z_lt_le_dec (Zdigits2 z) (n + 1)) as [Hs|Hs].
  - assert (z < 2 ^ n).
    { eapply Z.lt_le_trans; [exact Hhi|]. apply Z.pow_le_mono_r; lia. }
    rewrite Z.div_small by lia. simpl. lia.
  - rewrite Z.max_r by lia.
    apply Zdigits2_unique; [|lia].
    assert (Hp : 0 < 2 ^ n) by (apply Z.pow_pos_nonneg; lia).
    split.
    + apply Z.div_le_lower_bound; [lia|].
      rewrite <- Z.pow_add_r by lia.
      replace (n + (Zdigits2 z - n - 1)) with (Zdigits2 z - 1) by lia. lia.
    + apply Z.div_lt_upper_bound; [lia|].
      rewrite <- Z.pow_add_r by lia.
      replace (n + (Zdigits2 z - n)) with (Zdigits2 z) by lia. lia.
Qed.

Lemma Zdigits2_shiftl z n :
  0 < z -> 0 <= n -> Zdigits2 (z * 2 ^ n) = Zdigits2 z + n.
Proof.
  intros Hz Hn.
  pose proof (Zdigits2_bounds z Hz) as [Hlo Hhi].
  pose proof (Zdigits2_pos z Hz) as Hd.
  assert (Hp : 0 < 2 ^ n) by (apply Z.pow_pos_nonneg; lia).
  apply Zdigits2_unique; [|lia]. split.
  - replace (Zdigits2 z + n - 1) with ((Zdigits2 z - 1) + n) by lia.
    rewrite Z.pow_add_r by lia. nia.
  - rewrite Z.pow_add_r by lia. nia.
Qed.

Lemma Zdigits2_mono a b : 0 <= a <= b -> Zdigits2 a <= Zdigits2 b.
Proof.
  intros [Ha Hab].
  destruct (Z.eq_dec a 0) as [->|]; [apply Zdigits2_nonneg|].
  destruct a as [|a|a], b as [|b|b]; try lia.
  rewrite !Zdigits2_log2. pose proof (Z.log2_le_mono (Zpos a) (Zpos b)). lia.
Qed.

(** Adding one keeps the digit count, unless it reaches a power of two. *)
Lemma Zdigits2_succ z :
  0 <= z ->
  Zdigits2 (z + 1) = Zdigits2 z \/
  (Zdigits2 (z + 1) = Zdigits2 z + 1 /\ z + 1 = 2 ^ Zdigits2 z).
Proof.
  intros Hz.
  destruct (Z.eq_dec z 0) as [->|Hz0]; [right; split; reflexivity|].
  assert (Hzp : 0 < z) by lia.
  pose proof (Zdigits2_bounds z Hzp) as [Hlo Hhi].
  pose proof (Zdigits2_pos z Hzp) as Hd.
  destruct (Z.eq_dec (z + 1) (2 ^ Zdigits2 z)) as [He|Hne].
  - right. split; [|exact He].
    apply Zdigits2_unique; [|lia].
    replace (Zdigits2 z + 1 - 1) with (Zdigits2 z) by lia.
    rewrite Z.pow_add_r by lia. lia.
  - left. apply Zdigits2_unique; lia.
Qed.

(** ** Shifting the mantissa right *)

Lemma shr_1_m mrs : 0 <= shr_m mrs -> shr_m (shr_1 mrs) = Z.div2 (shr_m mrs).
Proof.
  destruct mrs as [m r s]. cbn [shr_m]. intros Hm.
  destruct m as [|[p|p|]|p]; try reflexivity; lia.
Qed.

Lemma iter_shr_1_m n : forall mrs,
  0 <= shr_m mrs ->
  shr_m (SpecFloat.iter_pos shr_1 n mrs) = Z.shiftr (shr_m mrs) (Zpos n).
Proof.
  induction n as [n IH|n IH|]; intros mrs Hm; cbn [SpecFloat.iter_pos].
  - assert (H1 : 0 <= shr_m (shr_1 mrs)).
    { rewrite shr_1_m by exact Hm. rewrite Z.div2_spec.
      now apply Z.shiftr_nonneg. }
    assert (H2 : 0 <= shr_m (SpecFloat.iter_pos shr_1 n (shr_1 mrs))).
    { rewrite IH by exact H1. now apply Z.shiftr_nonneg. }
    rewrite IH by exact H2. rewrite IH by exact H1.
    rewrite shr_1_m by exact Hm. rewrite Z.div2_spec.
    rewrite !Z.shiftr_shiftr by lia. f_equal. lia.
  - assert (H2 : 0 <= shr_m (SpecFloat.iter_pos shr_1 n mrs)).
    { rewrite IH by exact Hm. now apply Z.shiftr_nonneg. }
    rewrite IH by exact H2. rewrite IH by exact Hm.
    rewrite !Z.shiftr_shiftr by lia. f_equal. lia.
  - rewrite shr_1_m by exact Hm. now rewrite Z.div2_spec.
Qed.

Lemma shr_record_of_loc_m m l : shr_m (shr_record_of_loc m l) = m.
Proof. now destruct l as [|[]]. Qed.

Lemma dropped_nonneg m e : 0 <= dropped m e.
Proof. unfold dropped. lia. Qed.

Lemma shr_fexp_spec m e l :
  0 <= m ->
  shr_m (fst (shr_fexp prec emax m e l)) = Z.shiftr m (dropped m e) /\
  snd (shr_fexp prec emax m e l) = e + dropped m e.
Proof.
  intros Hm. unfold shr_fexp, shr, dropped.
  destruct (fexp prec emax (Zdigits2 m + e) - e) as [|n|n] eqn:En;
    cbn [fst snd].
  - rewrite shr_record_of_loc_m. cbn. split; [reflexivity|lia].
  - rewrite iter_shr_1_m by (rewrite shr_record_of_loc_m; exact Hm).
    rewrite shr_record_of_loc_m. rewrite Z.max_r by lia. split; reflexivity.
  - rewrite shr_record_of_loc_m. rewrite Z.max_l by lia. cbn.
    split; [reflexivity|lia].
Qed.

Lemma round_nearest_even_bounds m l :
  m <= round_nearest_even m l <= m + 1.
Proof.
  destruct l as [|[]]; cbn [round_nearest_even]; try lia.
  destruct (Z.even m); lia.
Qed.
End Rounding.

(** * Binary32: what rounding returns *)

Section RoundingResults.
Local Open Scope Z_scope.

(** [binary_round_aux] drops [dropped m e] bits, rounds to [m1], and
    renormalises once more in case the rounding carried. *)
Lemma round_aux_shape s m e l :
  0 <= m ->
  exists m1,
    Z.shiftr m (dropped m e) <= m1 <= Z.shiftr m (dropped m e) + 1 /\
    binary_round_aux prec emax s m e l =
      pack s (Z.shiftr m1 (dropped m1 (e + dropped m e)))
             (e + dropped m e + dropped m1 (e + dropped m e)).
Proof.
  intros Hm. unfold binary_round_aux.
  destruct (shr_fexp_spec m e l Hm) as [Hm1 He1].
  destruct (shr_fexp prec emax m e l) as [mrs' e'] eqn:E1.
  cbn [fst snd] in Hm1, He1.
  set (m1 := round_nearest_even (shr_m mrs') (loc_of_shr_record mrs')).
  assert (Hb : shr_m mrs' <= m1 <= shr_m mrs' + 1)
    by apply round_nearest_even_bounds.
  assert (Hm1nn : 0 <= m1).
  { assert (0 <= shr_m mrs') by (rewrite Hm1; now apply Z.shiftr_nonneg).
    lia. }
  destruct (shr_fexp_spec m1 e' loc_Exact Hm1nn) as [Hm2 He2].
  destruct (shr_fexp prec emax m1 e' loc_Exact) as [mrs'' e''] eqn:E2.
  cbn [fst snd] in Hm2, He2.
  exists m1. rewrite <- Hm1. split; [exact Hb|].
  rewrite Hm2, He2, He1. reflexivity.
Qed.

(** ** Packing a non-negative mantissa *)

Lemma pack_not_nan s z e : 0 <= z -> is_nan (pack s z e) = false.
Proof.
  intros Hz. unfold pack. destruct z; [reflexivity| |lia].
  now destruct (_ <=? 104).
Qed.

Lemma pack_in_range s z e : Zdigits2 z <= 24 -> in_range (pack s z e).
Proof.
  intros Hd. unfold pack. destruct z as [|m2|m2]; cbn; auto.
  destruct (Z.leb_spec e 104); cbn; auto.
Qed.

Lemma pack_small_exponent s z e :
  0 <= z -> e <= 104 ->
  pack s z e = S754_zero s \/ exists m2, pack s z e = S754_finite s m2 e.
Proof.
  intros Hz He. unfold pack. destruct z as [|m2|m2]; [now left| |lia].
  right. exists m2. now destruct (Z.leb_spec e 104); [|lia].
Qed.

Lemma pack_digits_nonzero s z e s' :
  0 < Zdigits2 z -> pack s z e <> S754_zero s'.
Proof.
  intros Hd. unfold pack. destruct z; [simpl in Hd; lia| |discriminate].
  now destruct (_ <=? 104).
Qed.

(** ** Consequences for [binary_round_aux] *)

Lemma round_aux_not_nan s m e l :
  0 <= m -> is_nan (binary_round_aux prec emax s m e l) = false.
Proof.
  intros Hm. destruct (round_aux_shape s m e l Hm) as (m1 & Hb & ->).
  assert (H0 : 0 <= Z.shiftr m (dropped m e)) by now apply Z.shiftr_nonneg.
  apply pack_not_nan, Z.shiftr_nonneg. lia.
Qed.

Lemma round_aux_sign s m e l :
  sign_or_nan s (binary_round_aux prec emax s m e l) = true.
Proof.
  unfold binary_round_aux.
  destruct (shr_fexp prec emax m e l) as [mrs' e'].
  destruct (shr_fexp prec emax _ e' loc_Exact) as [mrs'' e''].
  destruct (shr_m mrs''); cbn; [apply eqb_reflx| |reflexivity].
  destruct (Z.leb e'' _); cbn; apply eqb_reflx.
Qed.

(** A finite result has at most 24 digits and an exponent of at most
    104. *)
Lemma round_aux_in_range s m e l :
  0 <= m -> in_range (binary_round_aux prec emax s m e l).
Proof.
  intros Hm. destruct (round_aux_shape s m e l Hm) as (m1 & Hb & ->).
  set (e1 := e + dropped m e) in *.
  assert (Hm1 : 0 <= m1).
  { assert (0 <= Z.shiftr m (dropped m e)) by now apply Z.shiftr_nonneg.
    lia. }
  set (n2 := dropped m1 e1).
  assert (Hn2 : Zdigits2 m1 - 24 <= n2)
    by (unfold n2, dropped; rewrite fexp32; lia).
  apply pack_in_range.
  rewrite Zdigits2_shiftr by (try apply dropped_nonneg; lia). lia.
Qed.

(** A value below [2^k] rounds to at most [2^k]. *)
Lemma round_aux_below s m e l k :
  0 < m -> e <= fexp prec emax (Zdigits2 m + e) ->
  Zdigits2 m + e <= k -> -125 <= k <= 127 ->
  binary_round_aux prec emax s m e l = S754_zero s \/
  exists m2 e2,
    binary_round_aux prec emax s m e l = S754_finite s m2 e2 /\
    (e2 < k - 23 \/ (e2 = k - 23 /\ m2 = 8388608%positive)).
Proof.
  intros Hm He Hk Hrange.
  destruct (round_aux_shape s m e l) as (m1 & Hb & ->); [lia|].
  set (n1 := dropped m e) in *.
  assert (Hn1 : n1 = fexp prec emax (Zdigits2 m + e) - e)
    by (unfold n1, dropped; lia).
  set (e1 := e + n1) in *.
  assert (He1 : e1 = fexp prec emax (Zdigits2 m + e)) by lia.
  assert (He1k : e1 <= k - 24) by (rewrite He1, fexp32; lia).
  set (m' := Z.shiftr m n1) in *.
  assert (Hm' : 0 <= m') by (apply Z.shiftr_nonneg; lia).
  assert (Hd' : Zdigits2 m' + e1 <= k).
  { unfold m'. rewrite Zdigits2_shiftr by lia. lia. }
  assert (Hd1 : Zdigits2 m1 <= Zdigits2 (m' + 1))
    by (apply Zdigits2_mono; lia).
  set (n2 := dropped m1 e1) in *.
  assert (Hn2 : n2 = Z.max 0 (Z.max (Zdigits2 m1 + e1 - 24) (-149) - e1))
    by reflexivity.
  assert (Hm1 : 0 <= m1) by lia.
  assert (Hm2 : 0 <= Z.shiftr m1 n2) by (apply Z.shiftr_nonneg; lia).
  assert (Hsmall : e1 + n2 < k - 23 ->
            pack s (Z.shiftr m1 n2) (e1 + n2) = S754_zero s \/
            exists m2 e2,
              pack s (Z.shiftr m1 n2) (e1 + n2) = S754_finite s m2 e2 /\
              (e2 < k - 23 \/ e2 = k - 23 /\ m2 = 8388608%positive)).
  { intros Hlt.
    destruct (pack_small_exponent s _ (e1 + n2) Hm2) as [->|[m2 ->]];
      [lia|now left|].
    right. exists m2, (e1 + n2). split; [reflexivity|now left]. }
  destruct (Zdigits2_succ m' Hm') as [Hsame|[Hcarry Hpow]].
  - (* no carry: the exponent stays below k - 23 *)
    apply Hsmall. lia.
  - destruct (Z_lt_le_dec (e1 + n2) (k - 23)) as [Hlt|Hge];
      [now apply Hsmall|].
    (* the carry reached 2^k *)
    assert (Heq : e1 + n2 = k - 23) by lia.
    assert (Hdm1 : Zdigits2 m1 = Zdigits2 m' + 1) by lia.
    assert (Hm1eq : m1 = m' + 1).
    { destruct (Z.eq_dec m1 m') as [E|E]; [rewrite E in Hdm1; lia|lia]. }
    assert (Hdk : Zdigits2 m' = k - e1) by lia.
    assert (Hshift : Z.shiftr m1 n2 = 2 ^ 23).
    { rewrite Hm1eq, Hpow, Hdk.
      rewrite Z.shiftr_div_pow2 by lia.
      rewrite <- Z.pow_sub_r by lia. f_equal. lia. }
    rewrite Hshift. right. exists 8388608%positive, (e1 + n2).
    change (2 ^ 23) with (Zpos 8388608). unfold pack.
    destruct (Z.leb_spec (e1 + n2) 104); [|lia].
    split; [reflexivity|right; lia].
Qed.

(** A value of at least [2^-126] does not round to zero. *)
Lemma round_aux_nonzero s m e l :
  0 < m -> e <= fexp prec emax (Zdigits2 m + e) -> -125 <= Zdigits2 m + e ->
  forall s', binary_round_aux prec emax s m e l <> S754_zero s'.
Proof.
  intros Hm He Hk s'. rewrite fexp32 in He.
  destruct (round_aux_shape s m e l) as (m1 & Hb & ->); [lia|].
  set (n1 := dropped m e) in *.
  assert (Hn1 : n1 = Zdigits2 m - 24)
    by (unfold n1, dropped; rewrite fexp32; lia).
  set (m' := Z.shiftr m n1) in *.
  pose proof (Zdigits2_pos m Hm) as Hdm.
  assert (Hd' : Zdigits2 m' = 24).
  { unfold m'. rewrite Zdigits2_shiftr by lia. lia. }
  assert (Hm' : 0 < m').
  { assert (0 <= m') by (apply Z.shiftr_nonneg; lia).
    destruct (Z.eq_dec m' 0) as [E|E]; [rewrite E in Hd'; discriminate|lia]. }
  assert (Hd1lo : 24 <= Zdigits2 m1)
    by (rewrite <- Hd'; apply Zdigits2_mono; lia).
  assert (Hd1hi : Zdigits2 m1 <= 25).
  { transitivity (Zdigits2 (m' + 1)); [apply Zdigits2_mono; lia|].
    destruct (Zdigits2_succ m') as [?|[? _]]; lia. }
  set (n2 := dropped m1 (e + n1)) in *.
  assert (Hn2 : n2 = Zdigits2 m1 - 24)
    by (unfold n2, dropped; rewrite fexp32; lia).
  apply pack_digits_nonzero.
  rewrite Zdigits2_shiftr by lia. lia.
Qed.

(** A value below [2^k] whose exponent is at most [k - 24] does not
    overflow. *)
Lemma round_aux_no_overflow s m e l k :
  0 <= m -> e <= k - 24 -> Zdigits2 m + e <= k -> -125 <= k <= 127 ->
  forall s', binary_round_aux prec emax s m e l <> S754_infinity s'.
Proof.
  intros Hm He Hk Hr s'.
  destruct (round_aux_shape s m e l Hm) as (m1 & Hb & ->).
  set (n1 := dropped m e) in *.
  assert (Hn1 : n1 = Z.max 0 (Z.max (Zdigits2 m + e - 24) (-149) - e))
    by reflexivity.
  set (e1 := e + n1) in *.
  set (m' := Z.shiftr m n1) in *.
  assert (Hm' : 0 <= m') by now apply Z.shiftr_nonneg.
  assert (Hd' : Zdigits2 m' + e1 <= k).
  { unfold m'. rewrite Zdigits2_shiftr by lia. lia. }
  assert (Hd1 : Zdigits2 m1 <= Zdigits2 m' + 1).
  { transitivity (Zdigits2 (m' + 1)); [apply Zdigits2_mono; lia|].
    destruct (Zdigits2_succ m' Hm') as [?|[? _]]; lia. }
  set (n2 := dropped m1 e1) in *.
  assert (Hn2 : n2 = Z.max 0 (Z.max (Zdigits2 m1 + e1 - 24) (-149) - e1))
    by reflexivity.
  assert (Hm2 : 0 <= Z.shiftr m1 n2) by (apply Z.shiftr_nonneg; lia).
  destruct (pack_small_exponent s _ (e1 + n2) Hm2) as [->|[m2 ->]];
    [lia|discriminate|discriminate].
Qed.

(** ** [binary_round]: alignment, then [binary_round_aux] *)

Lemma iter_xO_pow2 m d : Zpos (Pos.iter xO m d) = Zpos m * 2 ^ Zpos d.
Proof.
  induction d as [|d IH] using Pos.peano_ind.
  - simpl. lia.
  - rewrite Pos.iter_succ, Pos2Z.inj_succ, Z.pow_succ_r by lia.
    rewrite Pos2Z.inj_xO, IH. lia.
Qed.

Lemma shl_align_spec m e e' :
  snd (shl_align m e e') = Z.min e e' /\
  Zpos (fst (shl_align m e e')) = Zpos m * 2 ^ (e - Z.min e e').
Proof.
  unfold shl_align. destruct (e' - e) as [|d|d] eqn:Ed; cbn [fst snd].
  - rewrite Z.min_l by lia. rewrite Z.sub_diag. simpl. lia.
  - rewrite Z.min_l by lia. rewrite Z.sub_diag. simpl. lia.
  - rewrite Z.min_r by lia. rewrite iter_xO_pow2. split; [reflexivity|].
    f_equal. f_equal. lia.
Qed.

Lemma binary_round_aligned s m e :
  exists mz ez,
    binary_round prec emax s m e
    = binary_round_aux prec emax s (Zpos mz) ez loc_Exact /\
    Zdigits2 (Zpos mz) + ez = Zdigits2 (Zpos m) + e /\
    ez <= fexp prec emax (Zdigits2 (Zpos mz) + ez).
Proof.
  unfold binary_round.
  change (Zpos (digits2_pos m)) with (Zdigits2 (Zpos m)).
  set (t := fexp prec emax (Zdigits2 (Zpos m) + e)).
  destruct (shl_align_spec m e t) as [Hs Hf].
  destruct (shl_align m e t) as [mz ez]. cbn [fst snd] in Hs, Hf.
  exists mz, ez. split; [reflexivity|].
  assert (Hd : Zdigits2 (Zpos mz) + ez = Zdigits2 (Zpos m) + e).
  { rewrite Hf, Zdigits2_shiftl by lia. lia. }
  split; [exact Hd|]. rewrite Hd. fold t. lia.
Qed.

Lemma binary_round_not_nan s m e :
  is_nan (binary_round prec emax s m e) = false.
Proof.
  destruct (binary_round_aligned s m e) as (mz & ez & -> & _ & _).
  apply round_aux_not_nan. lia.
Qed.

Lemma binary_round_sign s m e :
  sign_or_nan s (binary_round prec emax s m e) = true.
Proof.
  unfold binary_round.
  destruct (shl_align _ _ _) as [mz ez]. apply round_aux_sign.
Qed.

Lemma binary_round_below s m e k :
  Zdigits2 (Zpos m) + e <= k -> -125 <= k <= 127 ->
  binary_round prec emax s m e = S754_zero s \/
  exists m2 e2,
    binary_round prec emax s m e = S754_finite s m2 e2 /\
    (e2 < k - 23 \/ (e2 = k - 23 /\ m2 = 8388608%positive)).
Proof.
  intros Hk Hr.
  destruct (binary_round_aligned s m e) as (mz & ez & -> & Hd & Ha).
  apply round_aux_below; lia.
Qed.

Lemma binary_round_nonzero s m e s' :
  -125 <= Zdigits2 (Zpos m) + e ->
  binary_round prec emax s m e <> S754_zero s'.
Proof.
  intros Hk.
  destruct (binary_round_aligned s m e) as (mz & ez & -> & Hd & Ha).
  apply round_aux_nonzero; lia.
Qed.
Lemma binary_round_in_range s m e : in_range (binary_round prec emax s m e).
Proof.
  destruct (binary_round_aligned s m e) as (mz & ez & -> & _ & _).
  apply round_aux_in_range. lia.
Qed.

End RoundingResults.

(** * Binary32: the operations the operators use *)

Section Binary32Arithmetic.
Local Open Scope Z_scope.

Lemma nonneg_cases x :
  nonneg x = true ->
  x = S754_zero false \/ x = S754_infinity false \/
  exists m e, x = S754_finite false m e.
Proof.
  destruct x as [[]|[]| |[] m e]; try discriminate; intros _; eauto.
Qed.

Lemma nonneg_intro x :
  sign_clear x = true -> is_nan x = false -> nonneg x = true.
Proof. unfold nonneg. now intros -> ->. Qed.

Lemma nonneg_sign_clear x : nonneg x = true -> sign_clear x = true.
Proof. unfold nonneg. now intros [? _]%andb_prop. Qed.

(** ** Conversion of a size *)

Lemma of_Z_sign_clear n : sign_clear (of_Z (Z.of_nat n)) = true.
Proof.
  unfold of_Z. destruct (Z.of_nat n) eqn:E; try reflexivity.
  - apply binary_round_sign.
  - lia.
Qed.


(** A positive size converts to a positive float, finite or infinite. *)
Lemma of_Z_pos_shape z :
  1 <= z ->
  (exists m e, of_Z z = S754_finite false m e) \/
  of_Z z = S754_infinity false.
Proof.
  intros Hz. unfold of_Z. destruct z as [|p|p]; try lia.
  cbn [binary_normalize].
  pose proof (binary_round_not_nan false p 0) as Hn.
  pose proof (binary_round_nonzero false p 0) as Hnz.
  pose proof (Zdigits2_nonneg (Zpos p)).
  pose proof (binary_round_sign false p 0) as Hs.
  destruct (binary_round prec emax false p 0) as [s|s| |s m e];
    try discriminate.
  - exfalso. apply (Hnz s); [lia|reflexivity].
  - right. now destruct s.
  - left. destruct s; [discriminate|]. now exists m, e.
Qed.

(** ** Signs *)

Lemma SFabs_sign_clear x : sign_clear (SFabs x) = true.
Proof. now destruct x. Qed.


Lemma SFadd_sign_clear x y :
  sign_clear x = true -> sign_clear y = true ->
  sign_clear (SFadd prec emax x y) = true.
Proof.
  destruct x as [[]|[]| |[] mx ex], y as [[]|[]| |[] my ey];
    try discriminate; try reflexivity.
  intros _ _. cbn [SFadd cond_Zopp Z.add binary_normalize].
  apply binary_round_sign.
Qed.

Lemma SFdiv_sign_clear x y :
  sign_clear x = true -> sign_clear y = true ->
  sign_clear (SFdiv prec emax x y) = true.
Proof.
  destruct x as [[]|[]| |[] mx ex], y as [[]|[]| |[] my ey];
    try discriminate; try reflexivity.
  intros _ _. unfold SFdiv.
  destruct (SFdiv_core_binary _ _ _ _ _ _) as [[mz ez] lz].
  apply round_aux_sign.
Qed.


Lemma SFadd_nonneg x y :
  nonneg x = true -> nonneg y = true ->
  nonneg (SFadd prec emax x y) = true.
Proof.
  intros Hx Hy.
  destruct (nonneg_cases x Hx) as [->|[->|(mx & ex & ->)]];
    destruct (nonneg_cases y Hy) as [->|[->|(my & ey & ->)]];
    try reflexivity.
  apply nonneg_intro; [now apply SFadd_sign_clear|].
  cbn [SFadd cond_Zopp Z.add binary_normalize]. apply binary_round_not_nan.
Qed.

Lemma div_core_quotient_nonneg m1 e1 m2 e2 :
  0 <= fst (fst (SFdiv_core_binary prec emax (Zpos m1) e1 (Zpos m2) e2)).
Proof.
  unfold SFdiv_core_binary.
  set (s := _ - _ - Z.min _ _).
  set (m' := match s with
             | Z0 => Zpos m1
             | Zpos _ => Z.shiftl (Zpos m1) s
             | Zneg _ => 0
             end).
  assert (Hm' : 0 <= m').
  { unfold m'. destruct s; try lia. apply Z.shiftl_nonneg. lia. }
  pose proof (Z.div_pos m' (Zpos m2) Hm' ltac:(lia)) as Hq.
  unfold Z.div in Hq. destruct (Z.div_eucl m' (Zpos m2)) as [q r].
  exact Hq.
Qed.


(** ** Commutativity *)

Lemma SFmul_comm x y : SFmul prec emax x y = SFmul prec emax y x.
Proof.
  destruct x as [sx|sx| |sx mx ex], y as [sy|sy| |sy my ey]; cbn [SFmul];
    try reflexivity; try (now rewrite xorb_comm).
  now rewrite xorb_comm, Pos.mul_comm, Z.add_comm.
Qed.

(** [==] holds between a number and itself; it fails on NaN only. *)
Lemma SFeqb_refl x : is_nan x = false -> SFeqb x x = true.
Proof.
  destruct x as [s|[]| |[] m e]; try discriminate; intros _;
    try reflexivity; unfold SFeqb, SFcompare;
    now rewrite Z.compare_refl, Pos.compare_cont_refl.
Qed.

(** ** Ranges *)

Lemma SFmul_in_range x y : in_range (SFmul prec emax x y).
Proof.
  destruct x as [sx|sx| |sx mx ex], y as [sy|sy| |sy my ey]; cbn [SFmul];
    try exact I.
  apply round_aux_in_range. lia.
Qed.

Lemma SFadd_in_range x y :
  in_range x -> in_range y -> in_range (SFadd prec emax x y).
Proof.
  destruct x as [sx|sx| |sx mx ex], y as [sy|sy| |sy my ey]; intros Hx Hy;
    cbn [SFadd]; try exact I; try assumption.
  - now destruct sx, sy.
  - now destruct sx, sy.
  - unfold binary_normalize.
    destruct (_ + _); [exact I| |]; apply binary_round_in_range.
Qed.

Lemma SFmul_self_sign_clear x : sign_clear (SFmul prec emax x x) = true.
Proof.
  destruct x as [[]|[]| |s m e]; try reflexivity.
  cbn [SFmul]. rewrite xorb_nilpotent. apply round_aux_sign.
Qed.

(** ** Square roots *)

Lemma sqrt_core_bounds m e :
  Zdigits2 (Zpos m) <= 24 -> e <= 104 ->
  let '(q, e', l) := SFsqrt_core_binary prec emax (Zpos m) e in
  0 <= q /\ e' <= 40 /\ Zdigits2 q + e' <= 64.
Proof.
  intros Hd He. unfold SFsqrt_core_binary.
  set (d := Zdigits2 (Zpos m)) in *.
  set (e' := Z.min (fexp prec emax (Z.div2 (d + e + 1))) (Z.div2 e)).
  set (s := e - 2 * e').
  assert (Hdpos : 0 < d) by (apply Zdigits2_pos; lia).
  assert (He' : e' <= 40 /\ 2 * e' <= e).
  { unfold e'. rewrite fexp32, !Z.div2_div. split; [|].
    - assert ((d + e + 1) / 2 < 65) by (apply Z.div_lt_upper_bound; lia). lia.
    - pose proof (Z.mul_div_le e 2 ltac:(lia)). lia. }
  assert (Hs : 0 <= s) by (unfold s; lia).
  set (m' := match s with
             | Zpos _ => Z.shiftl (Zpos m) s
             | Z0 => Zpos m
             | Zneg _ => 0
             end).
  assert (Hm'eq : m' = Zpos m * 2 ^ s).
  { unfold m'. destruct s as [|p|p] eqn:Es; [simpl; lia| |lia].
    now rewrite Z.shiftl_mul_pow2 by lia. }
  assert (Hm'pos : 0 < m').
  { rewrite Hm'eq. apply Z.mul_pos_pos; [lia|apply Z.pow_pos_nonneg; lia]. }
  assert (Hdm' : Zdigits2 m' = d + s)
    by (rewrite Hm'eq; apply Zdigits2_shiftl; lia).
  pose proof (Z.sqrtrem_spec m' ltac:(lia)) as Hsq.
  destruct (Z.sqrtrem m') as [q r]. destruct Hsq as [Hq Hr].
  assert (Hq0 : 0 <= q) by lia.
  split; [exact Hq0|]. split; [lia|].
  set (j := (d + s + 1) / 2).
  assert (Hj : d + s <= 2 * j).
  { unfold j. pose proof (Z.div_mod (d + s + 1) 2 ltac:(lia)).
    pose proof (Z.mod_pos_bound (d + s + 1) 2 ltac:(lia)). lia. }
  assert (Hj0 : 0 <= j) by lia.
  assert (Hqj : q < 2 ^ j).
  { destruct (Z_lt_le_dec q (2 ^ j)) as [|Hge]; [assumption|exfalso].
    pose proof (Zdigits2_bounds m' Hm'pos) as [_ Hhi]. rewrite Hdm' in Hhi.
    assert (2 ^ (2 * j) <= q * q).
    { replace (2 * j) with (j + j) by lia. rewrite Z.pow_add_r by lia.
      assert (0 < 2 ^ j) by (apply Z.pow_pos_nonneg; lia). nia. }
    assert (2 ^ (d + s) <= 2 ^ (2 * j)) by (apply Z.pow_le_mono_r; lia).
    lia. }
  assert (Hdq : Zdigits2 q <= j).
  { destruct (Z.eq_dec q 0) as [->|]; [simpl; lia|].
    apply Zdigits2_le_iff; lia. }
  assert (j + e' <= 64).
  { unfold j, s.
    replace (d + (e - 2 * e') + 1) with ((d + e + 1) + (- e') * 2) by lia.
    rewrite Z.div_add by lia.
    assert ((d + e + 1) / 2 < 65) by (apply Z.div_lt_upper_bound; lia). lia. }
  lia.
Qed.

Lemma SFsqrt_finite x :
  in_range x -> is_finite x = true -> sign_clear x = true ->
  is_finite (SFsqrt prec emax x) = true.
Proof.
  destruct x as [s|s| |[] m e]; try discriminate; try reflexivity.
  intros [Hd He] _ _. cbn [SFsqrt].
  pose proof (sqrt_core_bounds m e Hd He) as Hb.
  destruct (SFsqrt_core_binary prec emax (Zpos m) e) as [[q e'] l].
  destruct Hb as (Hq & He' & Hk).
  pose proof (round_aux_not_nan false q e' l Hq) as Hn.
  pose proof (round_aux_no_overflow false q e' l 64 Hq ltac:(lia) Hk
                ltac:(lia)) as Hi.
  destruct (binary_round_aux prec emax false q e' l) as [s|s| |s m2 e2];
    try reflexivity; try discriminate.
  exfalso. now apply (Hi s).
Qed.

(** ** Subtracting from 1.0 *)

Lemma sub_one_le_one x :
  nonneg x = true -> le32 (SFsub prec emax one32 x) one32.
Proof.
  intros Hx. unfold le32.
  destruct (nonneg_cases x Hx) as [->|[->|(mx & ex & ->)]];
    try reflexivity.
  unfold one32, pos_float. cbn [SFsub cond_Zopp].
  set (ez := Z.min (-23) ex).
  destruct (shl_align_spec 8388608 (-23) ez) as [_ HA].
  destruct (shl_align_spec mx ex ez) as [_ HB].
  set (A := Zpos (fst (shl_align 8388608 (-23) ez))) in *.
  set (B := Zpos (fst (shl_align mx ex ez))) in *.
  assert (Hez : Z.min (-23) ez = ez) by (unfold ez; lia).
  rewrite Hez in HA.
  assert (HA' : A = 2 ^ (- ez)).
  { rewrite HA. change (Zpos 8388608) with (2 ^ 23).
    rewrite <- Z.pow_add_r by (unfold ez; lia). f_equal. lia. }
  assert (HB' : 0 < B) by (unfold B; lia).
  unfold binary_normalize.
  destruct (A - B) as [|p|p] eqn:Ed; [reflexivity| |].
  - (* 0 < 1 - x < 1 *)
    assert (Hd : Zdigits2 (Zpos p) + ez <= 0).
    { assert (Zdigits2 (Zpos p) <= - ez); [|lia].
      apply Zdigits2_le_iff; [lia|unfold ez; lia|]. lia. }
    destruct (binary_round_below false p ez 0 Hd ltac:(lia))
      as [->|(m2 & e2 & -> & [Hlt|[-> ->]])]; [reflexivity| |reflexivity].
    unfold SFleb, SFcompare.
    destruct (Z.compare_spec e2 (-23)); [lia|reflexivity|lia].
  - (* 1 - x < 0 *)
    pose proof (binary_round_not_nan true p ez) as Hn.
    pose proof (binary_round_sign true p ez) as Hs.
    destruct (binary_round prec emax true p ez) as [[]|[]| |[] m2 e2];
      try discriminate; reflexivity.
Qed.
End Binary32Arithmetic.

(** * Binary32: the operators *)

Section Binary32Operators.

(** ** Coherence *)

Lemma abs_sum_sign_clear (v : list float32) (acc : float32) :
  sign_clear acc = true ->
  sign_clear (fold_left fadd (map fabs v) acc) = true.
Proof.
  revert acc. induction v as [|x v IH]; intros acc Hacc; [exact Hacc|].
  cbn [map fold_left]. apply IH.
  apply SFadd_sign_clear; [exact Hacc|apply SFabs_sign_clear].
Qed.

Lemma mean_abs_sign_clear (v : list float32) :
  sign_clear (mean_abs v) = true.
Proof.
  unfold mean_abs, fsum. apply SFdiv_sign_clear.
  - now apply abs_sum_sign_clear.
  - apply of_Z_sign_clear.
Qed.

Lemma std_min_one_unit (score : float32) :
  sign_clear score = true ->
  le32 zero32 (std_min fone score) /\ le32 (std_min fone score) one32.
Proof.
  intros Hs. unfold std_min. cbn [fltb fone arith32].
  destruct (SFltb score one32) eqn:Hlt; [|split; reflexivity].
  unfold le32. split.
  - destruct score as [[]|[]| |[] m e]; try discriminate; reflexivity.
  - unfold SFltb in Hlt. unfold SFleb.
    destruct (SFcompare score one32) as [[]|]; try discriminate; reflexivity.
Qed.

(** ** Stability *)



Lemma fsum_all_zero (l : list float32) :
  Forall (fun d => d = zero32) l -> fsum l = zero32.
Proof.
  unfold fsum. induction l as [|d l IH]; intros Hl; [reflexivity|].
  inversion Hl; subst. cbn [fold_left]. now apply IH.
Qed.

Lemma delta_i_short (h : list float32) :
  (length h < 2)%nat -> calculate_delta_i h = one32.
Proof.
  intros Hlen. unfold calculate_delta_i.
  now destruct (Nat.ltb_spec (length h) 2); [|lia].
Qed.


Lemma delta_i_all_zero (h : list float32) :
  Forall (fun d => d = zero32) (successive_diffs h) ->
  calculate_delta_i h = one32.
Proof.
  intros Hz.
  destruct (Nat.lt_ge_cases (length h) 2) as [Hs|Hl].
  - now apply delta_i_short.
  - rewrite delta_loop_sum by exact Hl. unfold stability_formula.
    rewrite fsum_all_zero by exact Hz.
    cbn [of_size arith32].
    destruct (of_Z_pos_shape (Z.of_nat (length h - 1)))
      as [(m & e & ->)| ->]; [lia| |]; reflexivity.
Qed.

Lemma successive_diffs_sign_clear (h : list float32) :
  Forall (fun d => sign_clear d = true) (successive_diffs h).
Proof.
  induction h as [|prev [|cur rest] IH]; cbn [successive_diffs];
    constructor; [apply SFabs_sign_clear|exact IH].
Qed.

Lemma fsum_sign_clear (l : list float32) (acc : float32) :
  Forall (fun d => sign_clear d = true) l -> sign_clear acc = true ->
  sign_clear (fold_left fadd l acc) = true.
Proof.
  revert acc. induction l as [|d l IH]; intros acc Hl Hacc; [exact Hacc|].
  inversion Hl; subst. cbn [fold_left]. apply IH; [assumption|].
  now apply SFadd_sign_clear.
Qed.


(** Whatever the history holds, a result that is a number is at most 1.0. *)
Lemma delta_i_le_one_unless_nan (h : list float32) :
  is_nan (calculate_delta_i h) = false -> le32 (calculate_delta_i h) one32.
Proof.
  destruct (Nat.lt_ge_cases (length h) 2) as [Hs|Hl].
  - now rewrite delta_i_short.
  - rewrite delta_loop_sum by exact Hl. unfold stability_formula, fsum.
    set (q := fdiv _ _).
    assert (Hq : sign_clear q = true).
    { apply SFdiv_sign_clear; [|apply of_Z_sign_clear].
      apply fsum_sign_clear; [apply successive_diffs_sign_clear|reflexivity]. }
    intros Hn. apply sub_one_le_one. apply nonneg_intro; [exact Hq|].
    destruct q; try reflexivity. discriminate Hn.
Qed.

(** A constant history of finite values *)

Lemma SFsub_diag (c : float32) :
  is_finite c = true -> SFsub prec emax c c = zero32.
Proof.
  destruct c as [[]|s| |s m e]; try discriminate; try reflexivity.
  intros _. cbn [SFsub]. now rewrite Z.sub_diag.
Qed.

Lemma successive_diffs_constant (c : float32) (n : nat) :
  is_finite c = true ->
  Forall (fun d => d = zero32) (successive_diffs (repeat c n)).
Proof.
  intros Hc. induction n as [|[|n] IH]; cbn [repeat successive_diffs];
    try constructor.
  - cbn [fabs fsub arith32]. now rewrite SFsub_diag.
  - exact IH.
Qed.

Lemma delta_i_constant (c : float32) (n : nat) :
  is_finite c = true -> calculate_delta_i (repeat c n) = one32.
Proof.
  intros Hc. apply delta_i_all_zero. now apply successive_diffs_constant.
Qed.

(** ** Symmetry of the resonance under [==] *)

Lemma resonance_symmetric_eqb (a b : list float32) :
  is_nan (calculate_resonance a b) = false ->
  SFeqb (calculate_resonance a b) (calculate_resonance b a) = true.
Proof.
  intros Hn.
  replace (calculate_resonance b a) with (calculate_resonance a b).
  - now apply SFeqb_refl.
  - apply resonance_symmetric_of_mul_comm. exact SFmul_comm.
Qed.

(** ** Resonance against the zero vector *)

Lemma SFadd_finite_inv x y :
  is_finite (SFadd prec emax x y) = true ->
  is_finite x = true /\ is_finite y = true.
Proof.
  destruct x as [sx|sx| |sx mx ex], y as [sy|sy| |sy my ey];
    try (intros _; split; reflexivity); cbn [SFadd]; try discriminate.
  now destruct sx, sy.
Qed.

Lemma SFmul_self_finite_inv x :
  is_finite (SFmul prec emax x x) = true -> is_finite x = true.
Proof. destruct x; try reflexivity; discriminate. Qed.

Lemma SFsqrt_finite_inv x :
  is_finite (SFsqrt prec emax x) = true -> is_finite x = true.
Proof. destruct x as [s|[]| |[] m e]; try reflexivity; discriminate. Qed.

Lemma fsum_finite_inv (l : list float32) (acc : float32) :
  is_finite (fold_left fadd l acc) = true ->
  is_finite acc = true /\ Forall (fun x => is_finite x = true) l.
Proof.
  revert acc. induction l as [|x l IH]; intros acc Hf; [now split|].
  cbn [fold_left] in Hf. destruct (IH _ Hf) as [Hacc Hl].
  destruct (SFadd_finite_inv _ _ Hacc) as [Ha Hx]. split; [exact Ha|].
  now constructor.
Qed.

Lemma squares_finite_inv (b : list float32) :
  Forall (fun x => is_finite x = true) (pointwise_mul b b) ->
  Forall (fun x => is_finite x = true) b.
Proof.
  induction b as [|x b IH]; intros Hf; [constructor|].
  cbn [pointwise_mul] in Hf. inversion Hf; subst.
  constructor; [now apply SFmul_self_finite_inv|now apply IH].
Qed.

(** A finite norm means finite components. *)
Lemma norm_finite_components (b : list float32) :
  is_finite (norm b) = true -> Forall (fun x => is_finite x = true) b.
Proof.
  intros Hn. apply squares_finite_inv.
  apply SFsqrt_finite_inv in Hn. now apply fsum_finite_inv in Hn.
Qed.

Lemma sum_squares_shape (b : list float32) (acc : float32) :
  in_range acc -> sign_clear acc = true ->
  in_range (fold_left fadd (pointwise_mul b b) acc) /\
  sign_clear (fold_left fadd (pointwise_mul b b) acc) = true.
Proof.
  revert acc. induction b as [|x b IH]; intros acc Hr Hs; [now split|].
  cbn [pointwise_mul fold_left]. apply IH.
  - apply SFadd_in_range; [exact Hr|apply SFmul_in_range].
  - apply SFadd_sign_clear; [exact Hs|apply SFmul_self_sign_clear].
Qed.

(** The norm is finite exactly when the sum of squares is. *)
Lemma norm_finite_iff (b : list float32) :
  is_finite (norm b) = is_finite (dot b b).
Proof.
  destruct (sum_squares_shape b zero32 I eq_refl) as [Hr Hs].
  fold (fsum (pointwise_mul b b)) in Hr, Hs. fold (dot b b) in Hr, Hs.
  unfold norm.
  destruct (is_finite (dot b b)) eqn:Hf.
  - now apply SFsqrt_finite.
  - destruct (is_finite (fsqrt (dot b b))) eqn:Hn; [|reflexivity].
    apply SFsqrt_finite_inv in Hn. congruence.
Qed.

Lemma dot_zero_vector (n : nat) (b : list float32) :
  Forall (fun x => is_finite x = true) b ->
  dot (zero_vector n) b = zero32.
Proof.
  unfold dot, fsum, zero_vector. revert b.
  induction n as [|n IH]; intros [|y b] Hf; try reflexivity.
  inversion Hf as [|? ? Hy Hb]; subst.
  cbn [repeat pointwise_mul fold_left].
  replace (fadd fzero (fmul zero32 y)) with zero32; [now apply IH|].
  destruct y as [[]|[]| |[] m e]; try discriminate; reflexivity.
Qed.

Lemma zero_vector_finite (n : nat) :
  Forall (fun x => is_finite x = true) (zero_vector n).
Proof. apply Forall_forall. intros x Hx. now apply repeat_spec in Hx as ->. Qed.

Lemma norm_zero_vector (n : nat) : norm (zero_vector n) = zero32.
Proof.
  unfold norm. now rewrite (dot_zero_vector _ _ (zero_vector_finite n)).
Qed.

Lemma zero_vector_length (n : nat) : length (zero_vector n) = n.
Proof. apply repeat_length. Qed.
End Binary32Operators.

Import Exact.

(** * Exact arithmetic: the Cauchy-Schwarz bound *)

Section ExactArithmetic.
Local Open Scope R_scope.

Lemma cauchy_schwarz_step (d A B x y : R) :
  d * d <= A * B -> 0 <= A -> 0 <= B ->
  (d + x * y) * (d + x * y) <= (A + x * x) * (B + y * y).
Proof.
  intros Hd HA HB.
  pose proof (Rle_0_sqr x) as Hx. pose proof (Rle_0_sqr y) as Hy.
  unfold Rsqr in Hx, Hy.
  destruct HA as [HA|<-].
  - assert (0 <= A * (A * (y * y) + B * (x * x) - 2 * d * x * y)).
    { replace (A * (A * (y * y) + B * (x * x) - 2 * d * x * y))
        with ((A * y - d * x) * (A * y - d * x) + x * x * (A * B - d * d))
        by ring.
      pose proof (Rle_0_sqr (A * y - d * x)) as Hs. unfold Rsqr in Hs. nra. }
    assert (0 <= A * (y * y) + B * (x * x) - 2 * d * x * y).
    { apply Rmult_le_reg_l with A; [exact HA|]. lra. }
    lra.
  - assert (d = 0).
    { apply Rsqr_0_uniq. pose proof (Rle_0_sqr d). unfold Rsqr in *. lra. }
    subst d. nra.
Qed.

Lemma cauchy_schwarz_fold (a b : list R) (d A B : R) :
  length a = length b ->
  d * d <= A * B -> 0 <= A -> 0 <= B ->
  let d' := fold_left fadd (pointwise_mul a b) d in
  let A' := fold_left fadd (pointwise_mul a a) A in
  let B' := fold_left fadd (pointwise_mul b b) B in
  d' * d' <= A' * B' /\ 0 <= A' /\ 0 <= B'.
Proof.
  revert b d A B.
  induction a as [|x a IH]; intros [|y b] d A B Hab Hd HA HB;
    simpl in Hab; try discriminate; cbn [pointwise_mul fold_left].
  - auto.
  - apply IH; [lia| | |]; cbn [fadd fmul arithR].
    + now apply cauchy_schwarz_step.
    + nra.
    + nra.
Qed.

Lemma cauchy_schwarz (a b : list R) :
  length a = length b ->
  Rabs (dot a b) <= sqrt (dot a a) * sqrt (dot b b).
Proof.
  intros Hab.
  destruct (cauchy_schwarz_fold a b 0 0 0 Hab) as (Hd & HA & HB); try lra.
  rewrite <- sqrt_mult by assumption.
  rewrite <- sqrt_Rsqr_abs. apply sqrt_le_1.
  - apply Rle_0_sqr.
  - now apply Rmult_le_pos.
  - exact Hd.
Qed.

Lemma eps_pos : 0 < @feps R _.
Proof. cbn. lra. Qed.

(** ** Stability and the zero vector over the reals *)

Lemma exact_sum_nonneg (l : list R) (acc : R) :
  Forall (fun d => 0 <= d) l ->
  acc <= fold_left fadd l acc /\
  (fold_left fadd l acc = acc <-> Forall (fun d => d = 0) l).
Proof.
  revert acc. induction l as [|d l IH]; intros acc Hl.
  - cbn. split; [lra|]. split; [constructor|reflexivity].
  - inversion Hl as [|? ? Hd Hl']; subst. cbn [fold_left].
    destruct (IH (fadd acc d) Hl') as [Hle Hiff].
    cbn [fadd arithR] in *. split; [lra|]. split.
    + intros Heq. assert (d = 0) by lra. subst d.
      constructor; [reflexivity|]. apply Hiff. lra.
    + intros Hz. inversion Hz as [|? ? Hd0 Hz']; subst.
      apply Hiff in Hz'. lra.
Qed.

Lemma exact_diffs_nonneg (h : list R) :
  Forall (fun d => 0 <= d) (successive_diffs h).
Proof.
  induction h as [|prev [|cur rest] IH]; cbn [successive_diffs];
    constructor; [apply Rabs_pos|exact IH].
Qed.

(** Over the reals the stability is at most 1, with equality exactly when
    every successive difference is zero or the history is too short. *)
Lemma exact_delta_i_upper_bound (h : list R) :
  calculate_delta_i h <= 1 /\
  (calculate_delta_i h = 1 <->
   Forall (fun d => d = 0) (successive_diffs h) \/ (length h < 2)%nat).
Proof.
  destruct (Nat.lt_ge_cases (length h) 2) as [Hs|Hl].
  - unfold calculate_delta_i.
    destruct (Nat.ltb_spec (length h) 2); [|lia].
    cbn. split; [lra|]. split; auto.
  - rewrite delta_loop_sum by exact Hl. unfold stability_formula, fsum.
    destruct (exact_sum_nonneg (successive_diffs h) 0 (exact_diffs_nonneg h))
      as [Hle Hiff].
    cbn [fsub fdiv fone fzero of_size arithR] in *.
    set (S := fold_left fadd (successive_diffs h) 0) in *.
    assert (Hn : 0 < INR (length h - 1)) by (apply lt_0_INR; lia).
    assert (Hq : 0 <= S / INR (length h - 1)).
    { apply Rmult_le_pos; [exact Hle|]. left. now apply Rinv_0_lt_compat. }
    split; [lra|]. split.
    + intros Heq. left. apply Hiff.
      assert (Hz : S / INR (length h - 1) = 0) by lra.
      unfold Rdiv in Hz. apply Rmult_integral in Hz as [Hz|Hz]; [exact Hz|].
      pose proof (Rinv_0_lt_compat _ Hn). lra.
    + intros [Hz|Hlen]; [|lia]. apply Hiff in Hz. rewrite Hz.
      unfold Rdiv. lra.
Qed.

Lemma exact_dot_zero_vector (n : nat) (b : list R) :
  dot (repeat 0 n) b = 0.
Proof.
  unfold dot, fsum. revert b.
  induction n as [|n IH]; intros [|y b]; try reflexivity.
  cbn [repeat pointwise_mul fold_left].
  replace (fadd fzero (fmul 0 y)) with 0; [apply IH|]. cbn. lra.
Qed.

(** Over the reals the zero vector resonates to 0 against every vector. *)
Lemma exact_resonance_zero_vector (b : list R) :
  calculate_resonance (repeat 0 (length b)) b = 0.
Proof.
  destruct b as [|y b]; [reflexivity|].
  rewrite resonance_unfold.
  - unfold cosine_similarity_eps. rewrite exact_dot_zero_vector.
    cbn [fdiv arithR]. unfold Rdiv. lra.
  - apply repeat_length.
  - discriminate.
Qed.
End ExactArithmetic.

(** * The JNI entry point with two arrays *)

Section Boundary.
Context {F : Type} `{FloatArith F}.

(** The entry points with one array copy exactly that array. *)
Lemma operator11Coherence_returns (j_embedding : jfloatArray) :
  Java_com_manifold_app_NativeLib_operator11Coherence j_embedding
  = Returns (calculate_coherence j_embedding).
Proof.
  unfold Java_com_manifold_app_NativeLib_operator11Coherence,
    GetFloatArrayElements, GetArrayLength.
  now rewrite vector_of_range_whole.
Qed.

Lemma getDeltaI_returns (j_history : jfloatArray) :
  Java_com_manifold_app_NativeLib_getDeltaI j_history
  = Returns (calculate_delta_i j_history).
Proof.
  unfold Java_com_manifold_app_NativeLib_getDeltaI,
    GetFloatArrayElements, GetArrayLength.
  now rewrite vector_of_range_whole.
Qed.

(** With two arrays of one length the resonance entry point does the
    same. *)
Lemma operator7Resonance_equal_lengths (j_embedding j_centroid : jfloatArray) :
  length j_embedding = length j_centroid ->
  Java_com_manifold_app_NativeLib_operator7Resonance j_embedding j_centroid
  = Returns (calculate_resonance j_embedding j_centroid).
Proof.
  intros Hlen. unfold Java_com_manifold_app_NativeLib_operator7Resonance,
    GetFloatArrayElements, GetArrayLength.
  rewrite vector_of_range_whole, Hlen. now rewrite vector_of_range_whole.
Qed.

(** A centroid array shorter than the embedding array is read past its
    end. *)
Lemma operator7Resonance_short_centroid (j_embedding j_centroid : jfloatArray) :
  length j_centroid < length j_embedding ->
  Java_com_manifold_app_NativeLib_operator7Resonance j_embedding j_centroid
  = OutOfRangeRead.
Proof.
  intros Hlt. unfold Java_com_manifold_app_NativeLib_operator7Resonance,
    GetFloatArrayElements, GetArrayLength.
  rewrite vector_of_range_whole. unfold vector_of_range.
  now destruct (Nat.leb_spec (length j_embedding) (length j_centroid)); [lia|].
Qed.

(** A centroid array at least as long as the embedding array is cut to
    the embedding's length, and the operator runs on the cut. *)
Lemma operator7Resonance_long_centroid (j_embedding j_centroid : jfloatArray) :
  length j_embedding <= length j_centroid ->
  Java_com_manifold_app_NativeLib_operator7Resonance j_embedding j_centroid
  = Returns (calculate_resonance j_embedding
               (firstn (length j_embedding) j_centroid)).
Proof.
  intros Hle. unfold Java_com_manifold_app_NativeLib_operator7Resonance,
    GetFloatArrayElements, GetArrayLength.
  rewrite vector_of_range_whole. unfold vector_of_range.
  now destruct (Nat.leb_spec (length j_embedding) (length j_centroid)); [|lia].
Qed.
End Boundary.

(** * Values from the specification's list of testable properties *)

Import Samples.

Section TestValues.
Local Open Scope Z_scope.

Example eps32_nearest_to_1e_9 :
  eps32 = SFdiv prec emax (of_Z 1) (of_Z 1000000000).
Proof. vm_compute. reflexivity. Qed.

Example one32_is_one : one32 = of_Z 1.
Proof. vm_compute. reflexivity. Qed.

Example literals_are_floats :
  forallb valid32 [zero32; one32; eps32; half32; fifth32] = true.
Proof. vm_compute. reflexivity. Qed.

Example tenths_are_nearest :
  tenths = [SFdiv prec emax (of_Z 1) (of_Z 10);
            SFdiv prec emax (of_Z (-2)) (of_Z 10);
            SFdiv prec emax (of_Z 3) (of_Z 10)].
Proof. vm_compute. reflexivity. Qed.

Example resonance_of_unit_x : calculate_resonance unit_x unit_x = one32.
Proof. vm_compute. reflexivity. Qed.

Example resonance_of_mismatch :
  calculate_resonance short_embedding long_centroid = zero32.
Proof. vm_compute. reflexivity. Qed.

Example resonance_of_empty : calculate_resonance (@nil float32) [] = zero32.
Proof. vm_compute. reflexivity. Qed.

Example coherence_of_twos : calculate_coherence twos = one32.
Proof. vm_compute. reflexivity. Qed.

Example coherence_of_tenths : calculate_coherence tenths = fifth32.
Proof. vm_compute. reflexivity. Qed.

Example coherence_of_empty : calculate_coherence (@nil float32) = zero32.
Proof. vm_compute. reflexivity. Qed.

Example coherence_of_nan : calculate_coherence [S754_nan] = one32.
Proof. vm_compute. reflexivity. Qed.

Example delta_i_of_constant : calculate_delta_i constant_history = one32.
Proof. vm_compute. reflexivity. Qed.

Example delta_i_of_one_zero : calculate_delta_i one_zero_history = zero32.
Proof. vm_compute. reflexivity. Qed.

Example delta_i_of_erratic :
  calculate_delta_i erratic_history = S754_finite true 8388608 (-21).
Proof. vm_compute. reflexivity. Qed.
End TestValues.

(** * The operators against their specification *)

(** ** Resonance *)

(** C1. For equal-length, non-empty vectors [a] and [b],
    [calculate_resonance a b] is dot(a,b) / (norm(a) * norm(b) + 1e-9), and
    the single loop over the indices 0 .. n-1 leaves the dot product and the
    two squared norms in its three accumulators.  This holds for every
    arithmetic, binary32 and the reals included. *)
Theorem resonance_is_cosine_similarity
    {F : Type} {A : FloatArith F} (a b : list F) :
  length a = length b -> a <> [] ->
  calculate_resonance a b = cosine_similarity_eps a b /\
  resonance_loop a b
  = {| dot_product := dot a b; norm_a := dot a a; norm_b := dot b b |}.
Proof.
  intros Hab Hne. split.
  - now apply resonance_unfold.
  - now apply resonance_loop_sums.
Qed.

Lemma resonance_is_cosine_similarity_witness :
  length vec_3_4 = length vec_4_3 /\ vec_3_4 <> [] /\
  calculate_resonance vec_3_4 vec_4_3 = cosine_similarity_eps vec_3_4 vec_4_3 /\
  resonance_loop vec_3_4 vec_4_3
  = {| dot_product := dot vec_3_4 vec_4_3;
       norm_a := dot vec_3_4 vec_3_4;
       norm_b := dot vec_4_3 vec_4_3 |}.
Proof.
  split; [reflexivity|]. split; [discriminate|].
  apply (resonance_is_cosine_similarity (A := arith32) vec_3_4 vec_4_3).
  - reflexivity.
  - discriminate.
Defined.

(** C2. When [a] and [b] differ in length, or either is empty,
    [calculate_resonance a b] is exactly 0.0.  The function is total, so
    there is no failing path. *)
Theorem resonance_default_on_mismatch
    {F : Type} {A : FloatArith F} (a b : list F) :
  length a <> length b \/ a = [] \/ b = [] ->
  calculate_resonance a b = fzero.
Proof.
  intros Hg. unfold calculate_resonance.
  now rewrite resonance_guard_fires.
Qed.

Lemma resonance_default_on_mismatch_witness :
  length short_embedding <> length long_centroid /\
  calculate_resonance short_embedding long_centroid = zero32.
Proof.
  split; [discriminate|].
  apply (resonance_default_on_mismatch (A := arith32)
           short_embedding long_centroid).
  left. discriminate.
Defined.

(** C3. The entry point measures only the embedding array and copies that
    many floats out of both buffers.  With the arrays [1, 2, 3] and [1, 2]
    the copy of the centroid reads past its two elements; with [1, 0] and
    [1, 0, 7] the centroid is cut to [1, 0] and the call returns 1.0, not
    the default 0.0.  The mismatch guard of [calculate_resonance] never
    sees two different lengths. *)
Theorem operator7Resonance_mismatched_arrays :
  Java_com_manifold_app_NativeLib_operator7Resonance array_1_2_3 array_1_2
  = OutOfRangeRead /\
  Java_com_manifold_app_NativeLib_operator7Resonance array_1_0 array_1_0_7
  = Returns one32.
Proof.
  split.
  - apply operator7Resonance_short_centroid. simpl. lia.
  - rewrite operator7Resonance_long_centroid by (simpl; lia).
    vm_compute. reflexivity.
Qed.

(** C8, as stated with [==], fails in binary32: against the finite
    centroid [2^100] the zero vector resonates to NaN in either order, and
    NaN == NaN is false. *)
Lemma resonance_symmetry_fails_on_nan :
  length (zero_vector 1) = length huge_centroid /\
  Forall (fun x => valid32 x = true /\ is_finite x = true)
    (zero_vector 1 ++ huge_centroid) /\
  SFeqb (calculate_resonance (zero_vector 1) huge_centroid)
        (calculate_resonance huge_centroid (zero_vector 1)) = false.
Proof.
  split; [reflexivity|]. split; [now repeat constructor|].
  vm_compute. reflexivity.
Qed.

(** C8, amended. In binary32, for equal-length [a] and [b], either
    [calculate_resonance a b] is a number, and then
    [calculate_resonance b a] is the same number and the two compare
    equal under [==]; or it is NaN, and then [calculate_resonance b a] is
    NaN too and [==] is false.  Multiplication of floats is commutative,
    so swapping the arguments swaps the two norms and leaves every product
    unchanged. *)
Theorem resonance_symmetric_unless_nan (a b : list float32) :
  length a = length b ->
  (is_nan (calculate_resonance a b) = false /\
   calculate_resonance a b = calculate_resonance b a /\
   SFeqb (calculate_resonance a b) (calculate_resonance b a) = true) \/
  (is_nan (calculate_resonance a b) = true /\
   is_nan (calculate_resonance b a) = true /\
   SFeqb (calculate_resonance a b) (calculate_resonance b a) = false).
Proof.
  intros _.
  assert (Hs : calculate_resonance a b = calculate_resonance b a)
    by (apply resonance_symmetric_of_mul_comm; exact SFmul_comm).
  rewrite <- Hs.
  destruct (is_nan (calculate_resonance a b)) eqn:Hn.
  - right. split; [reflexivity|]. split; [reflexivity|].
    now destruct (calculate_resonance a b).
  - left. split; [reflexivity|]. split; [reflexivity|].
    now apply SFeqb_refl.
Qed.

Lemma resonance_symmetric_unless_nan_witness :
  length vec_3_4 = length vec_4_3 /\
  is_nan (calculate_resonance vec_3_4 vec_4_3) = false /\
  calculate_resonance vec_3_4 vec_4_3 = calculate_resonance vec_4_3 vec_3_4 /\
  SFeqb (calculate_resonance vec_3_4 vec_4_3)
        (calculate_resonance vec_4_3 vec_3_4) = true.
Proof.
  split; [reflexivity|].
  destruct (resonance_symmetric_unless_nan vec_3_4 vec_4_3 eq_refl)
    as [H|[Hn _]]; [exact H|].
  vm_compute in Hn. discriminate Hn.
Defined.

(** C9. Over the reals, for equal-length non-empty vectors the resonance
    lies in [-1, 1]: by Cauchy-Schwarz the dot product is at most the
    product of the norms in absolute value, and the denominator adds a
    positive epsilon to that product. *)
Theorem resonance_in_unit_ball_exact (a b : list R) :
  length a = length b -> a <> [] ->
  (-1 <= calculate_resonance a b <= 1)%R.
Proof.
  intros Hab Hne. rewrite resonance_unfold by assumption.
  unfold cosine_similarity_eps, norm. cbn [fdiv fadd fmul fsqrt arithR].
  pose proof (cauchy_schwarz a b Hab) as Hcs.
  pose proof eps_pos as He.
  set (D := dot a b) in *. set (s := (sqrt (dot a a) * sqrt (dot b b))%R) in *.
  assert (Hs : (0 < s + feps)%R) by (pose proof (Rabs_pos D); lra).
  assert (HD : (- (s + feps) <= D <= s + feps)%R).
  { destruct (Rabs_def2 D (s + feps)%R); [lra|lra]. }
  split.
  - apply Rmult_le_reg_r with (s + feps)%R; [exact Hs|].
    unfold Rdiv. rewrite Rmult_assoc, Rinv_l by lra. lra.
  - apply Rmult_le_reg_r with (s + feps)%R; [exact Hs|].
    unfold Rdiv. rewrite Rmult_assoc, Rinv_l by lra. lra.
Qed.

Lemma resonance_in_unit_ball_exact_witness :
  length real_3_4 = length real_4_3 /\ real_3_4 <> [] /\
  (-1 <= calculate_resonance real_3_4 real_4_3 <= 1)%R.
Proof.
  split; [reflexivity|]. split; [discriminate|].
  apply (resonance_in_unit_ball_exact real_3_4 real_4_3).
  - reflexivity.
  - discriminate.
Defined.

(** C10, as stated, fails in binary32: against the finite one-element
    centroid [2^100] the squared norm overflows to +infinity, the product
    0 * infinity is NaN, and the zero vector resonates to NaN. *)
Lemma resonance_zero_vector_overflow :
  huge_centroid <> [] /\
  Forall (fun x => valid32 x = true /\ is_finite x = true) huge_centroid /\
  calculate_resonance (zero_vector (length huge_centroid)) huge_centroid
  = S754_nan /\
  calculate_resonance (zero_vector (length huge_centroid)) huge_centroid
  <> zero32.
Proof.
  split; [discriminate|]. split; [now repeat constructor|].
  split; [vm_compute; reflexivity|vm_compute; discriminate].
Qed.

(** C10, amended. For every non-empty [b] whose sum of squares, as
    accumulated in binary32, is finite (no NaN or infinite component, no
    overflow), the zero vector of the same length resonates to exactly
    +0.0: the dot product is 0, the product of the norms is a zero, and
    epsilon makes the denominator positive.  For every other non-empty [b]
    the result is NaN. *)
Theorem resonance_zero_vector (b : list float32) :
  b <> [] ->
  (is_finite (dot b b) = true ->
   calculate_resonance (zero_vector (length b)) b = zero32) /\
  (is_finite (dot b b) = false ->
   calculate_resonance (zero_vector (length b)) b = S754_nan).
Proof.
  intros Hne.
  assert (Hlen : length (zero_vector (length b)) = length b)
    by apply zero_vector_length.
  assert (Hz : zero_vector (length b) <> [])
    by (destruct b; [congruence|discriminate]).
  rewrite (resonance_unfold _ _ Hlen Hz). unfold cosine_similarity_eps.
  rewrite norm_zero_vector, <- norm_finite_iff. split; intros Hn.
  - rewrite dot_zero_vector by now apply norm_finite_components.
    destruct (norm b) as [s|s| |s m e]; try discriminate; reflexivity.
  - destruct (norm b) as [s|s| |s m e]; try discriminate;
      destruct (dot _ b); reflexivity.
Qed.

Lemma resonance_zero_vector_witness :
  (vec_3_4 <> [] /\ is_finite (dot vec_3_4 vec_3_4) = true /\
   calculate_resonance (zero_vector (length vec_3_4)) vec_3_4 = zero32) /\
  (huge_centroid <> [] /\ is_finite (dot huge_centroid huge_centroid) = false /\
   calculate_resonance (zero_vector (length huge_centroid)) huge_centroid
   = S754_nan).
Proof.
  split.
  - split; [discriminate|]. split; [vm_compute; reflexivity|].
    apply (resonance_zero_vector vec_3_4).
    + discriminate.
    + vm_compute. reflexivity.
  - split; [discriminate|]. split; [vm_compute; reflexivity|].
    apply (resonance_zero_vector huge_centroid).
    + discriminate.
    + vm_compute. reflexivity.
Defined.

(** ** Coherence *)

Section Order32.
Local Open Scope Z_scope.

(** Comparing in the other order gives the opposite answer. *)
Lemma SFcompare_swap x y :
  SFcompare y x = option_map CompOpp (SFcompare x y).
Proof.
  destruct x as [sx|sx| |sx mx ex], y as [sy|sy| |sy my ey];
    try reflexivity; try (destruct sx, sy; reflexivity);
    try (destruct sx; reflexivity); try (destruct sy; reflexivity).
  cbn [SFcompare option_map].
  rewrite (Z.compare_antisym ey ex).
  pose proof (Pos.compare_cont_antisym my mx Eq) as Hm.
  cbn [CompOpp] in Hm. rewrite <- Hm.
  destruct sx, sy; try reflexivity;
    destruct (ey ?= ex); cbn [CompOpp]; try reflexivity;
    now rewrite ?CompOpp_involutive.
Qed.

Lemma SFleb_refl x : is_nan x = false -> SFleb x x = true.
Proof.
  intros Hn. pose proof (SFeqb_refl x Hn) as He.
  unfold SFeqb in He. unfold SFleb.
  now destruct (SFcompare x x) as [[]|].
Qed.

(** Between two numbers, [x < y] false means [y <= x]. *)
Lemma not_lt_le x y :
  is_nan x = false -> is_nan y = false ->
  SFltb x y = false -> SFleb y x = true.
Proof.
  intros Hx Hy Hlt. unfold SFltb in Hlt. unfold SFleb.
  rewrite (SFcompare_swap x y).
  destruct (SFcompare x y) as [[]|] eqn:E; try reflexivity; try discriminate.
  destruct x, y; discriminate.
Qed.
End Order32.

(** Over the reals the coherence is the library minimum of 1 and the mean
    of the absolute values. *)
Lemma exact_coherence_is_rmin (v : list R) :
  v <> [] -> calculate_coherence v = Rmin 1 (mean_abs v).
Proof.
  intros Hne. rewrite coherence_nonempty by exact Hne.
  unfold std_min, Rmin. cbn [fltb fone arithR].
  destruct (Rlt_dec (mean_abs v) 1), (Rle_dec 1 (mean_abs v));
    try reflexivity; lra.
Qed.

(** C4. In binary32, for a non-empty [v] the value of
    [calculate_coherence v] is the smaller of 1.0 and the mean of the
    |v_i|: it is one of the two, it is at most 1.0, and it is at most the
    mean whenever the mean is a number; when the mean is NaN it is 1.0.
    For the empty vector it is exactly 0.0.  The mean is the
    specification's formula, the sum of the absolute values in index
    order divided by the size; the order is the order of floats. *)
Theorem coherence_is_clamped_mean_abs (v : list float32) :
  (v <> [] ->
   (calculate_coherence v = one32 \/ calculate_coherence v = mean_abs v) /\
   le32 (calculate_coherence v) one32 /\
   (is_nan (mean_abs v) = false ->
    le32 (calculate_coherence v) (mean_abs v)) /\
   (is_nan (mean_abs v) = true -> calculate_coherence v = one32)) /\
  (v = [] -> calculate_coherence v = zero32).
Proof.
  split; [|now intros ->].
  intros Hne. rewrite coherence_nonempty by exact Hne.
  set (m := mean_abs v). unfold std_min. cbn [fltb fone arith32].
  destruct (SFltb m one32) eqn:Hlt.
  - assert (Hm : is_nan m = false) by (now destruct m).
    split; [now right|]. split; [|split].
    + unfold le32, SFleb. unfold SFltb in Hlt.
      now destruct (SFcompare m one32) as [[]|].
    + intros _. now apply SFleb_refl.
    + intros Hn. congruence.
  - split; [now left|]. split; [reflexivity|]. split.
    + intros Hm. now apply not_lt_le.
    + reflexivity.
Qed.

Lemma coherence_is_clamped_mean_abs_witness :
  (tenths <> [] /\ is_nan (mean_abs tenths) = false /\
   mean_abs tenths = fifth32 /\
   calculate_coherence tenths = fifth32 /\
   le32 (calculate_coherence tenths) one32 /\
   le32 (calculate_coherence tenths) (mean_abs tenths)) /\
  (twos <> [] /\ is_nan (mean_abs twos) = false /\
   mean_abs twos = of_Z 2 /\
   calculate_coherence twos = one32 /\
   le32 (calculate_coherence twos) (mean_abs twos)) /\
  calculate_coherence (@nil float32) = zero32.
Proof.
  assert (Ht : tenths <> []) by discriminate.
  assert (Hw : twos <> []) by discriminate.
  assert (Hnt : is_nan (mean_abs tenths) = false) by (vm_compute; reflexivity).
  assert (Hnw : is_nan (mean_abs twos) = false) by (vm_compute; reflexivity).
  destruct (coherence_is_clamped_mean_abs tenths) as [Hten _].
  destruct (Hten Ht) as (_ & Hle1 & Hlem & _).
  destruct (coherence_is_clamped_mean_abs twos) as [Htwo _].
  destruct (Htwo Hw) as (_ & _ & Hlem2 & _).
  destruct (coherence_is_clamped_mean_abs (@nil float32)) as [_ Hnil].
  split; [|split].
  - split; [exact Ht|]. split; [exact Hnt|].
    split; [vm_compute; reflexivity|]. split; [vm_compute; reflexivity|].
    split; [exact Hle1|exact (Hlem Hnt)].
  - split; [exact Hw|]. split; [exact Hnw|].
    split; [vm_compute; reflexivity|]. split; [vm_compute; reflexivity|].
    exact (Hlem2 Hnw).
  - exact (Hnil eq_refl).
Defined.

(** C5. In binary32 the coherence of every vector, empty or not, NaN and
    infinite components included, lies in [0, 1]: the sum of absolute
    values is NaN or has a clear sign bit, and [std::min(1.0f, score)]
    returns 1.0 unless [score < 1.0]. *)
Theorem coherence_in_unit_interval (v : list float32) :
  le32 zero32 (calculate_coherence v) /\ le32 (calculate_coherence v) one32.
Proof.
  destruct v as [|x v]; [split; reflexivity|].
  rewrite coherence_nonempty by discriminate.
  apply std_min_one_unit, mean_abs_sign_clear.
Qed.

(** ** Stability *)

(** C6. For a history of length n >= 2, [calculate_delta_i h] is 1.0 minus
    the sum of |h[i] - h[i-1]| over i = 1 .. n-1, divided by n - 1; for a
    shorter history it is exactly 1.0.  This holds for every arithmetic. *)
Theorem delta_i_is_stability_formula
    {F : Type} {A : FloatArith F} (h : list F) :
  (2 <= length h -> calculate_delta_i h = stability_formula h) /\
  (length h < 2 -> calculate_delta_i h = fone).
Proof.
  split.
  - apply delta_loop_sum.
  - intros Hlen. unfold calculate_delta_i.
    now destruct (Nat.ltb_spec (length h) 2); [|lia].
Qed.

Lemma delta_i_is_stability_formula_witness :
  (2 <= length erratic_history /\
   calculate_delta_i erratic_history = stability_formula erratic_history) /\
  (length [half32] < 2 /\ calculate_delta_i [half32] = one32).
Proof.
  split.
  - split; [simpl; lia|].
    apply (delta_i_is_stability_formula (A := arith32) erratic_history).
    simpl. lia.
  - split; [simpl; lia|].
    apply (delta_i_is_stability_formula (A := arith32) [half32]).
    simpl. lia.
Defined.




(** * Further properties of the code *)

Import Classes32 MoreSamples.

(** ** No operator reads outside a vector *)

Section CheckedReadsFacts.
Context {F : Type} `{FloatArith F}.

Lemma read_index_in_range (v : list F) (i : nat) :
  i < length v -> read_index v i = Some (at_index v i).
Proof. intros Hi. now apply nth_error_nth'. Qed.

Lemma resonance_checked_fold (a b : list F) (l : list nat)
    (st : resonance_acc F) :
  Forall (fun i => i < length a /\ i < length b) l ->
  fold_left (resonance_body_checked a b) l (Some st)
  = Some (fold_left (resonance_body a b) l st).
Proof.
  revert st. induction l as [|i l IH]; intros st Hl; [reflexivity|].
  inversion Hl as [|? ? [Ha Hb] Hl']; subst. cbn [fold_left].
  unfold resonance_body_checked at 2.
  rewrite (read_index_in_range a i Ha), (read_index_in_range b i Hb).
  now rewrite <- IH.
Qed.

Lemma delta_checked_fold (h : list F) (l : list nat) (acc : F) :
  Forall (fun i => 1 <= i /\ i < length h) l ->
  fold_left (delta_body_checked h) l (Some acc)
  = Some (fold_left
            (fun sum_diff i =>
               fadd sum_diff
                 (fabs (fsub (at_index h i) (at_index h (i - 1)))))
            l acc).
Proof.
  revert acc. induction l as [|i l IH]; intros acc Hl; [reflexivity|].
  inversion Hl as [|? ? [H1 Hi] Hl']; subst. cbn [fold_left].
  unfold delta_body_checked at 2.
  rewrite (read_index_in_range h i Hi).
  destruct i as [|j]; [lia|]. cbn [index_before].
  rewrite (read_index_in_range h j) by lia.
  replace (S j - 1) with j by lia. now rewrite <- IH.
Qed.

Lemma firstn_length_app (l extra : list F) :
  firstn (length l) (l ++ extra) = l.
Proof.
  rewrite firstn_app, Nat.sub_diag, firstn_all. cbn. apply app_nil_r.
Qed.
End CheckedReadsFacts.

(** X1. For all inputs, of equal length or not, [calculate_resonance]
    reads both vectors only at indices below their sizes: the checked loop
    never fails and returns what the unchecked code returns.  The guard on
    the sizes is what keeps [manifold_centroid[i]] in range. *)
Theorem resonance_reads_in_range
    {F : Type} {A : FloatArith F} (a b : list F) :
  calculate_resonance_checked a b = Some (calculate_resonance a b).
Proof.
  unfold calculate_resonance_checked, calculate_resonance, resonance_loop.
  destruct (Nat.eqb_spec (length a) (length b)) as [Hab|Hab];
    [|reflexivity].
  cbn [negb orb]. destruct (length a =? 0); [reflexivity|].
  now rewrite resonance_checked_fold by now apply resonance_indices_in_range.
Qed.

(** X2. For every history, [calculate_delta_i] reads [history[i]] and
    [history[i-1]] in range only, and [i - 1] never wraps around: the loop
    starts at 1 and runs only when there are at least two elements. *)
Theorem delta_i_reads_in_range
    {F : Type} {A : FloatArith F} (h : list F) :
  calculate_delta_i_checked h = Some (calculate_delta_i h).
Proof.
  unfold calculate_delta_i_checked, calculate_delta_i.
  destruct (length h <? 2); [reflexivity|].
  rewrite delta_checked_fold; [reflexivity|].
  apply Forall_forall. intros i Hi%in_seq. lia.
Qed.

(** ** The entry points *)

(** X3. The resonance entry point reads out of range exactly when the
    centroid array is shorter than the embedding array. *)
Theorem operator7Resonance_out_of_range_iff
    {F : Type} {A : FloatArith F} (j_embedding j_centroid : jfloatArray) :
  Java_com_manifold_app_NativeLib_operator7Resonance j_embedding j_centroid
  = OutOfRangeRead
  <-> length j_centroid < length j_embedding.
Proof.
  destruct (Nat.lt_ge_cases (length j_centroid) (length j_embedding))
    as [Hlt|Hge].
  - split; [intros _; exact Hlt|].
    intros _. now apply operator7Resonance_short_centroid.
  - rewrite operator7Resonance_long_centroid by exact Hge.
    split; [discriminate|lia].
Qed.

(** X4. Whatever follows the first [len] elements of the centroid array is
    ignored: with a centroid of the embedding's length followed by any
    tail, the entry point returns the resonance against the centroid
    without the tail. *)
Theorem operator7Resonance_ignores_centroid_tail
    {F : Type} {A : FloatArith F}
    (j_embedding j_centroid extra : jfloatArray) :
  length j_embedding = length j_centroid ->
  Java_com_manifold_app_NativeLib_operator7Resonance j_embedding
    (j_centroid ++ extra)
  = Returns (calculate_resonance j_embedding j_centroid).
Proof.
  intros Hlen. rewrite operator7Resonance_long_centroid.
  - now rewrite Hlen, firstn_length_app.
  - rewrite length_app. lia.
Qed.

Lemma operator7Resonance_ignores_centroid_tail_witness :
  length array_1_0 = length array_1_0 /\
  Java_com_manifold_app_NativeLib_operator7Resonance array_1_0
    (array_1_0 ++ tail_7)
  = Returns (calculate_resonance array_1_0 array_1_0).
Proof.
  split; [reflexivity|].
  apply (operator7Resonance_ignores_centroid_tail (A := arith32)
           array_1_0 array_1_0 tail_7).
  reflexivity.
Defined.

(** X5. In binary32 the coherence entry point never reads out of range,
    and the score it returns lies in [0, 1] for every array. *)
Theorem operator11Coherence_in_unit_interval
    (j_embedding : jfloatArray (F := float32)) :
  exists score,
    Java_com_manifold_app_NativeLib_operator11Coherence j_embedding
    = Returns score /\
    le32 zero32 score /\ le32 score one32.
Proof.
  rewrite operator11Coherence_returns. eexists. split; [reflexivity|].
  destruct j_embedding as [|x v]; [split; reflexivity|].
  rewrite coherence_nonempty by discriminate.
  apply std_min_one_unit, mean_abs_sign_clear.
Qed.

(** X6. In binary32 the stability entry point never reads out of range,
    and the score it returns is NaN or at most 1.0 for every array. *)
Theorem getDeltaI_nan_or_at_most_one
    (j_history : jfloatArray (F := float32)) :
  exists score,
    Java_com_manifold_app_NativeLib_getDeltaI j_history = Returns score /\
    (is_nan score = true \/ le32 score one32).
Proof.
  rewrite getDeltaI_returns. eexists. split; [reflexivity|].
  destruct (is_nan (calculate_delta_i j_history)) eqn:Hn; [now left|].
  right. now apply delta_i_le_one_unless_nan.
Qed.

(** ** NaN and infinities in the inputs (binary32) *)

Section NonFiniteInputs.

Lemma SFadd_nan_r x : SFadd prec emax x S754_nan = S754_nan.
Proof. now destruct x. Qed.

Lemma SFmul_nan_r x : SFmul prec emax x S754_nan = S754_nan.
Proof. now destruct x. Qed.

Lemma fsum_from_nan (l : list float32) :
  fold_left fadd l S754_nan = S754_nan.
Proof. induction l as [|x l IH]; [reflexivity|exact IH]. Qed.

Lemma fsum_with_nan (l : list float32) (acc : float32) :
  In S754_nan l -> fold_left fadd l acc = S754_nan.
Proof.
  revert acc. induction l as [|x l IH]; intros acc Hin; [destruct Hin|].
  destruct Hin as [Hx|Hin].
  - subst x. cbn [fold_left]. cbn [fadd arith32]. rewrite SFadd_nan_r.
    apply fsum_from_nan.
  - cbn [fold_left]. now apply IH.
Qed.

Lemma pointwise_mul_with_nan (a b : list float32) :
  length a = length b ->
  In S754_nan a \/ In S754_nan b ->
  In S754_nan (pointwise_mul a b).
Proof.
  revert b. induction a as [|x a IH]; intros [|y b] Hlen Hin;
    simpl in Hlen; try discriminate.
  - destruct Hin as [[]|[]].
  - cbn [pointwise_mul].
    destruct Hin as [[->|Ha]|[->|Hb]].
    + now left.
    + right. apply IH; [lia|now left].
    + left. cbn [fmul arith32]. apply SFmul_nan_r.
    + right. apply IH; [lia|now right].
Qed.

Lemma abs_sum_saturated (v : list float32) (acc : float32) :
  nan_or_pinf acc = true ->
  nan_or_pinf (fold_left fadd (map fabs v) acc) = true.
Proof.
  revert acc. induction v as [|x v IH]; intros acc Hacc; [exact Hacc|].
  cbn [map fold_left]. apply IH.
  destruct acc as [|[]| |]; try discriminate;
    [now destruct x as [| | |]|reflexivity].
Qed.

Lemma abs_sum_saturates (v : list float32) (acc : float32) :
  sign_clear acc = true ->
  Exists (fun x => is_finite x = false) v ->
  nan_or_pinf (fold_left fadd (map fabs v) acc) = true.
Proof.
  intros Hacc Hex. revert acc Hacc.
  induction Hex as [x v Hx|x v Hex IH]; intros acc Hacc; cbn [map fold_left].
  - apply abs_sum_saturated.
    destruct x as [| | |]; try discriminate;
      destruct acc as [[]|[]| |[]]; try discriminate; reflexivity.
  - apply IH. apply SFadd_sign_clear; [exact Hacc|apply SFabs_sign_clear].
Qed.

Lemma saturated_quotient x y :
  nan_or_pinf x = true -> sign_clear y = true ->
  nan_or_pinf (SFdiv prec emax x y) = true.
Proof.
  destruct x as [|[]| |]; try discriminate;
    destruct y as [[]|[]| |[]]; try discriminate; reflexivity.
Qed.

Lemma std_min_one_saturated (score : float32) :
  nan_or_pinf score = true -> std_min fone score = one32.
Proof. destruct score as [|[]| |]; try discriminate; reflexivity. Qed.

Lemma successive_diffs_with_nan (h : list float32) :
  In S754_nan h -> 2 <= length h -> In S754_nan (successive_diffs h).
Proof.
  induction h as [|prev [|cur rest] IH]; intros Hin Hlen;
    try (simpl in Hlen; lia).
  cbn [successive_diffs].
  destruct Hin as [->|[->|Hin]].
  - left. cbn [fabs fsub arith32]. now destruct cur.
  - now left.
  - right. apply IH; [now right|].
    destruct rest; [destruct Hin|simpl; lia].
Qed.
End NonFiniteInputs.

(** X7. In binary32, with two vectors of one length, a NaN component in
    either vector makes [calculate_resonance] return NaN: the epsilon term
    does not mask it. *)
Theorem resonance_propagates_nan (a b : list float32) :
  length a = length b ->
  In S754_nan a \/ In S754_nan b ->
  calculate_resonance a b = S754_nan.
Proof.
  intros Hlen Hin.
  assert (Hne : a <> []).
  { destruct a as [|x a]; [|discriminate].
    destruct b; [destruct Hin as [[]|[]]|discriminate]. }
  rewrite resonance_unfold by assumption.
  unfold cosine_similarity_eps, dot at 1, fsum.
  now rewrite fsum_with_nan by now apply pointwise_mul_with_nan.
Qed.

Lemma resonance_propagates_nan_witness :
  length nan_embedding = length plain_centroid /\
  (In S754_nan nan_embedding \/ In S754_nan plain_centroid) /\
  calculate_resonance nan_embedding plain_centroid = S754_nan.
Proof.
  split; [reflexivity|]. split; [left; left; reflexivity|].
  apply (resonance_propagates_nan nan_embedding plain_centroid).
  - reflexivity.
  - left. left. reflexivity.
Defined.

(** X8. In binary32, a NaN or infinite component makes
    [calculate_coherence] return exactly 1.0: the sum of absolute values
    becomes NaN or +infinity, and [std::min(1.0f, score)] answers 1.0
    whenever [score < 1.0f] is false. *)
Theorem coherence_saturates_on_non_finite (v : list float32) :
  Exists (fun x => is_finite x = false) v ->
  calculate_coherence v = one32.
Proof.
  intros Hex.
  rewrite coherence_nonempty by (intros ->; inversion Hex).
  apply std_min_one_saturated. unfold mean_abs, fsum.
  apply saturated_quotient; [|apply of_Z_sign_clear].
  now apply abs_sum_saturates.
Qed.

Lemma coherence_saturates_on_non_finite_witness :
  Exists (fun x => is_finite x = false) infinite_embedding /\
  calculate_coherence infinite_embedding = one32.
Proof.
  assert (Hex : Exists (fun x => is_finite x = false) infinite_embedding)
    by (right; left; reflexivity).
  split; [exact Hex|].
  apply (coherence_saturates_on_non_finite infinite_embedding). exact Hex.
Defined.

(** X9. In binary32, a NaN anywhere in a history of at least two elements
    makes [calculate_delta_i] return NaN. *)
Theorem delta_i_propagates_nan (h : list float32) :
  In S754_nan h -> 2 <= length h ->
  calculate_delta_i h = S754_nan.
Proof.
  intros Hin Hlen. rewrite delta_loop_sum by exact Hlen.
  unfold stability_formula, fsum.
  rewrite fsum_with_nan by now apply successive_diffs_with_nan.
  reflexivity.
Qed.

Lemma delta_i_propagates_nan_witness :
  In S754_nan nan_history /\ 2 <= length nan_history /\
  calculate_delta_i nan_history = S754_nan.
Proof.
  split; [left; reflexivity|]. split; [simpl; lia|].
  apply (delta_i_propagates_nan nan_history).
  - left. reflexivity.
  - simpl. lia.
Defined.

(** X10. In binary32, a history that repeats one finite value, however
    long, has stability exactly 1.0. *)
Theorem delta_i_constant_history (c : float32) (n : nat) :
  is_finite c = true ->
  calculate_delta_i (repeat c n) = one32.
Proof.
  intros Hc. apply delta_i_all_zero. now apply successive_diffs_constant.
Qed.

Lemma delta_i_constant_history_witness :
  is_finite half32 = true /\ calculate_delta_i (repeat half32 3) = one32.
Proof.
  split; [reflexivity|].
  apply (delta_i_constant_history half32 3). reflexivity.
Defined.

(** ** Negated inputs (binary32) *)

Section Negation.
Local Open Scope Z_scope.

Lemma SFmul_opp_opp x y :
  SFmul prec emax (SFopp x) (SFopp y) = SFmul prec emax x y.
Proof.
  destruct x as [sx|sx| |sx mx ex], y as [sy|sy| |sy my ey];
    cbn [SFopp SFmul]; try reflexivity; now rewrite xorb_negb_negb.
Qed.

Lemma pointwise_mul_opp_opp (a b : list float32) :
  pointwise_mul (map SFopp a) (map SFopp b) = pointwise_mul a b.
Proof.
  revert b. induction a as [|x a IH]; intros [|y b]; try reflexivity.
  cbn [map pointwise_mul fmul arith32]. now rewrite IH, SFmul_opp_opp.
Qed.

Lemma SFabs_opp x : SFabs (SFopp x) = SFabs x.
Proof. now destruct x. Qed.

Lemma map_abs_opp (v : list float32) : map fabs (map SFopp v) = map fabs v.
Proof.
  rewrite map_map. apply map_ext. intros y. apply SFabs_opp.
Qed.

Lemma map_abs_abs (v : list float32) : map fabs (map SFabs v) = map fabs v.
Proof.
  rewrite map_map. apply map_ext. intros y. now destruct y.
Qed.

(** The sign passed to the rounding only labels the result. *)
Lemma round_aux_abs s s' m e l :
  SFabs (binary_round_aux prec emax s m e l)
  = SFabs (binary_round_aux prec emax s' m e l).
Proof.
  unfold binary_round_aux.
  destruct (shr_fexp prec emax m e l) as [mrs' e'].
  destruct (shr_fexp prec emax _ e' loc_Exact) as [mrs'' e''].
  destruct (shr_m mrs''); try reflexivity.
  now destruct (Z.leb e'' _).
Qed.

Lemma binary_normalize_abs_opp z e :
  SFabs (binary_normalize prec emax (- z) e false)
  = SFabs (binary_normalize prec emax z e false).
Proof.
  destruct z as [|p|p]; cbn [Z.opp binary_normalize]; try reflexivity;
    unfold binary_round; destruct (shl_align _ _ _) as [mz ez];
    apply round_aux_abs.
Qed.

Lemma SFabs_sub_opp_opp x y :
  SFabs (SFsub prec emax (SFopp x) (SFopp y)) = SFabs (SFsub prec emax x y).
Proof.
  destruct x as [sx|sx| |sx mx ex], y as [sy|sy| |sy my ey];
    cbn [SFopp SFsub]; try reflexivity;
    try (destruct sx, sy; reflexivity).
  rewrite <- binary_normalize_abs_opp. f_equal. f_equal.
  destruct sx, sy; cbn [negb cond_Zopp]; lia.
Qed.

Lemma successive_diffs_opp (h : list float32) :
  successive_diffs (map SFopp h) = successive_diffs h.
Proof.
  induction h as [|prev [|cur rest] IH]; try reflexivity.
  cbn [map successive_diffs] in *. rewrite IH.
  cbn [fabs fsub arith32]. now rewrite SFabs_sub_opp_opp.
Qed.
End Negation.

(** X11. In binary32, negating every component of both vectors leaves
    [calculate_resonance] the same number when it is a number, each of the
    three accumulators receiving the same products; when it is NaN, the
    result for the negated vectors is NaN as well.  Nothing is said of the
    sign bit or payload of a NaN, which the model does not carry. *)
Theorem resonance_negate_both (a b : list float32) :
  (is_nan (calculate_resonance a b) = false /\
   calculate_resonance (map SFopp a) (map SFopp b) = calculate_resonance a b)
  \/
  (is_nan (calculate_resonance a b) = true /\
   is_nan (calculate_resonance (map SFopp a) (map SFopp b)) = true).
Proof.
  assert (Hs : calculate_resonance (map SFopp a) (map SFopp b)
               = calculate_resonance a b).
  { destruct (Nat.eq_dec (length a) (length b)) as [Hab|Hab].
    - destruct a as [|x a].
      + destruct b; [reflexivity|discriminate].
      + rewrite !resonance_unfold; try discriminate;
          try (rewrite !length_map; exact Hab); try exact Hab.
        unfold cosine_similarity_eps, norm, dot.
        now rewrite !pointwise_mul_opp_opp.
    - unfold calculate_resonance.
      rewrite (resonance_guard_fires a b) by now left.
      now rewrite (resonance_guard_fires (map SFopp a) (map SFopp b))
        by (left; rewrite !length_map; exact Hab). }
  rewrite Hs. destruct (is_nan (calculate_resonance a b)); [right|left];
    split; reflexivity.
Qed.

(** X12. In binary32, [calculate_coherence] does not see the signs of the
    components: negating them all, or replacing each by its absolute
    value, gives the same score. *)
Theorem coherence_ignores_signs (v : list float32) :
  calculate_coherence (map SFopp v) = calculate_coherence v /\
  calculate_coherence (map SFabs v) = calculate_coherence v.
Proof.
  destruct v as [|x v]; [split; reflexivity|].
  rewrite !coherence_nonempty by discriminate.
  unfold mean_abs. now rewrite map_abs_opp, map_abs_abs, !length_map.
Qed.

(** X13. In binary32, negating every value of a history leaves
    [calculate_delta_i] unchanged, bit for bit. *)
Theorem delta_i_negate_history (h : list float32) :
  calculate_delta_i (map SFopp h) = calculate_delta_i h.
Proof.
  destruct (Nat.lt_ge_cases (length h) 2) as [Hs|Hl].
  - rewrite !delta_i_short; [reflexivity|exact Hs|now rewrite length_map].
  - rewrite !delta_loop_sum by (try rewrite length_map; exact Hl).
    unfold stability_formula. now rewrite successive_diffs_opp, length_map.
Qed.

(** ** The epsilon guard (binary32) *)

Section EpsilonGuard.
Local Open Scope Z_scope.

Lemma SFsqrt_sign_clear x :
  sign_clear x = true -> sign_clear (SFsqrt prec emax x) = true.
Proof.
  destruct x as [[]|[]| |[] m e]; try discriminate; try reflexivity.
  intros _. cbn [SFsqrt].
  destruct (SFsqrt_core_binary _ _ _ _) as [[q e'] l]. apply round_aux_sign.
Qed.

Lemma SFmul_sign_clear x y :
  sign_clear x = true -> sign_clear y = true ->
  sign_clear (SFmul prec emax x y) = true.
Proof.
  destruct x as [[]|[]| |[] mx ex], y as [[]|[]| |[] my ey];
    try discriminate; try reflexivity.
  intros _ _. cbn [SFmul xorb]. apply round_aux_sign.
Qed.

Lemma sum_squares_sign_clear (a : list float32) :
  sign_clear (dot a a) = true.
Proof.
  destruct (sum_squares_shape a zero32 I eq_refl) as [_ Hs]. exact Hs.
Qed.

Lemma norm_sign_clear (a : list float32) : sign_clear (norm a) = true.
Proof. unfold norm. apply SFsqrt_sign_clear, sum_squares_sign_clear. Qed.

(** Adding epsilon to NaN or to a value with a clear sign bit gives NaN or
    a positive number: at least [eps32], so not a zero. *)
Lemma add_eps_positive p :
  sign_clear p = true -> nan_or_positive (SFadd prec emax p eps32) = true.
Proof.
  destruct p as [[]|[]| |[] m e]; try discriminate; try reflexivity.
  intros _. unfold eps32, pos_float. cbn [SFadd cond_Zopp].
  set (ez := Z.min e (-53)).
  destruct (shl_align_spec m e ez) as [_ HA].
  destruct (shl_align_spec 9007199 (-53) ez) as [_ HB].
  set (A := fst (shl_align m e ez)) in *.
  set (B := fst (shl_align 9007199 (-53) ez)) in *.
  assert (Hez : Z.min (-53) ez = ez) by (unfold ez; lia).
  rewrite Hez in HB.
  cbn [Z.add binary_normalize].
  pose proof (binary_round_not_nan false (A + B) ez) as Hn.
  pose proof (binary_round_sign false (A + B) ez) as Hs.
  assert (Hnz : forall s', binary_round prec emax false (A + B) ez
                           <> S754_zero s').
  { intros s'. apply binary_round_nonzero.
    assert (Hd : Zdigits2 (Zpos B) = 24 + (-53 - ez)).
    { rewrite HB. rewrite Zdigits2_shiftl by (unfold ez; lia). reflexivity. }
    assert (Zdigits2 (Zpos B) <= Zdigits2 (Zpos (A + B)))
      by (apply Zdigits2_mono; lia).
    lia. }
  destruct (binary_round prec emax false (A + B) ez) as [s|[]| |[] m2 e2];
    try discriminate; try reflexivity.
  exfalso. now apply (Hnz s).
Qed.

Lemma denominator_nan_or_positive (a b : list float32) :
  nan_or_positive (fadd (fmul (norm a) (norm b)) feps) = true.
Proof.
  apply add_eps_positive. apply SFmul_sign_clear; apply norm_sign_clear.
Qed.

Lemma SFadd_not_nan_of_nonneg x y :
  nonneg x = true -> nonneg y = true ->
  is_nan (SFadd prec emax x y) = false.
Proof.
  intros Hx Hy. pose proof (SFadd_nonneg x y Hx Hy) as Hn.
  unfold nonneg in Hn. apply andb_prop in Hn as [_ Hn].
  now apply negb_true_iff in Hn.
Qed.

Lemma add_eps_strictly_positive p :
  nonneg p = true -> positive32 (SFadd prec emax p eps32) = true.
Proof.
  intros Hp.
  pose proof (add_eps_positive p (nonneg_sign_clear p Hp)) as Hpos.
  pose proof (SFadd_not_nan_of_nonneg p eps32 Hp eq_refl) as Hn.
  destruct (SFadd prec emax p eps32) as [[]|[]| |[] m e];
    try discriminate; reflexivity.
Qed.

Lemma SFmul_finite_nonneg x y :
  nonneg x = true -> nonneg y = true ->
  is_finite x = true -> is_finite y = true ->
  nonneg (SFmul prec emax x y) = true.
Proof.
  intros Hx Hy Hfx Hfy.
  destruct (nonneg_cases x Hx) as [->|[->|(mx & ex & ->)]];
    destruct (nonneg_cases y Hy) as [->|[->|(my & ey & ->)]];
    try discriminate; try reflexivity.
  apply nonneg_intro.
  - apply SFmul_sign_clear; reflexivity.
  - cbn [SFmul]. apply round_aux_not_nan. lia.
Qed.

Lemma SFdiv_finite_by_positive x y :
  is_finite x = true -> positive32 y = true ->
  is_nan (SFdiv prec emax x y) = false.
Proof.
  destruct x as [sx|sx| |sx mx ex], y as [[]|[]| |[] my ey];
    try discriminate; try reflexivity.
  intros _ _. cbn [SFdiv].
  pose proof (div_core_quotient_nonneg mx ex my ey) as Hq.
  destruct (SFdiv_core_binary _ _ _ _ _ _) as [[mz ez] lz].
  cbn [fst] in Hq. now apply round_aux_not_nan.
Qed.

Lemma norm_nonneg_of_finite (a : list float32) :
  is_finite (dot a a) = true ->
  nonneg (norm a) = true /\ is_finite (norm a) = true.
Proof.
  intros Hf. rewrite <- norm_finite_iff in Hf. split; [|exact Hf].
  apply nonneg_intro; [apply norm_sign_clear|].
  now destruct (norm a).
Qed.
End EpsilonGuard.



(** X15. In binary32, when the loop ends with three finite accumulators
    (no NaN or infinite component, no overflow), [calculate_resonance]
    does not return NaN, the zero vector included. *)
Theorem resonance_not_nan_when_sums_finite (a b : list float32) :
  length a = length b ->
  is_finite (dot_product (resonance_loop a b)) = true ->
  is_finite (norm_a (resonance_loop a b)) = true ->
  is_finite (norm_b (resonance_loop a b)) = true ->
  is_nan (calculate_resonance a b) = false.
Proof.
  intros Hlen. rewrite resonance_loop_sums by exact Hlen.
  cbn [dot_product norm_a norm_b]. intros Hab Haa Hbb.
  destruct a as [|x a]; [destruct b; [reflexivity|discriminate]|].
  rewrite resonance_unfold by (exact Hlen || discriminate).
  unfold cosine_similarity_eps.
  destruct (norm_nonneg_of_finite _ Haa) as [Hna Hfa].
  destruct (norm_nonneg_of_finite _ Hbb) as [Hnb Hfb].
  apply SFdiv_finite_by_positive; [exact Hab|].
  apply add_eps_strictly_positive.
  now apply SFmul_finite_nonneg.
Qed.

Lemma resonance_not_nan_when_sums_finite_witness :
  length vec_3_4 = length vec_4_3 /\
  is_finite (dot_product (resonance_loop vec_3_4 vec_4_3)) = true /\
  is_finite (norm_a (resonance_loop vec_3_4 vec_4_3)) = true /\
  is_finite (norm_b (resonance_loop vec_3_4 vec_4_3)) = true /\
  is_nan (calculate_resonance vec_3_4 vec_4_3) = false.
Proof.
  split; [reflexivity|]. split; [vm_compute; reflexivity|].
  split; [vm_compute; reflexivity|]. split; [vm_compute; reflexivity|].
  apply (resonance_not_nan_when_sums_finite vec_3_4 vec_4_3).
  - reflexivity.
  - vm_compute. reflexivity.
  - vm_compute. reflexivity.
  - vm_compute. reflexivity.
Defined.

(** X16. In binary32, the resonance of a vector with itself is NaN or at
    least 0.0: every product in its dot product is a square. *)
Theorem resonance_self_not_negative (a : list float32) :
  is_nan (calculate_resonance a a) = true \/
  le32 zero32 (calculate_resonance a a).
Proof.
  destruct a as [|x a]; [right; reflexivity|].
  rewrite resonance_unfold by (reflexivity || discriminate).
  unfold cosine_similarity_eps.
  pose proof (denominator_nan_or_positive (x :: a) (x :: a)) as Hden.
  pose proof (sum_squares_sign_clear (x :: a)) as Hs.
  assert (Hq : sign_clear (fdiv (dot (x :: a) (x :: a))
                 (fadd (fmul (norm (x :: a)) (norm (x :: a))) feps)) = true).
  { apply SFdiv_sign_clear; [exact Hs|].
    destruct (fadd _ _) as [[]|[]| |[] m e]; try discriminate; reflexivity. }
  destruct (fdiv _ _) as [[]|[]| |[] m e]; try discriminate;
    (now left) || (right; reflexivity).
Qed.

(** ** Exact arithmetic *)

Section ExactFurther.
Local Open Scope R_scope.

Lemma exact_fsum_shift (l : list R) (acc : R) :
  fold_left fadd l acc = acc + fold_left fadd l 0.
Proof.
  revert acc. induction l as [|x l IH]; intros acc; cbn [fold_left].
  - lra.
  - rewrite (IH (fadd acc x)), (IH (fadd 0 x)). cbn [fadd arithR]. lra.
Qed.

Lemma exact_dot_nonneg (a : list R) : 0 <= dot a a.
Proof.
  destruct (cauchy_schwarz_fold a a 0 0 0 eq_refl) as (_ & HA & _);
    try lra. exact HA.
Qed.

Lemma exact_dot_opp_l (a b : list R) : dot (map Ropp a) b = - dot a b.
Proof.
  unfold dot, fsum.
  assert (Hgen : forall acc,
            fold_left fadd (pointwise_mul (map Ropp a) b) (- acc)
            = - fold_left fadd (pointwise_mul a b) acc).
  { revert b. induction a as [|x a IH]; intros [|y b] acc;
      cbn [map pointwise_mul fold_left]; try reflexivity.
    rewrite <- IH. f_equal. cbn [fadd fmul arithR]. lra. }
  replace (@fzero R _) with (- 0) at 1 by (cbn; lra).
  rewrite Hgen. reflexivity.
Qed.

Lemma exact_dot_opp_opp (a : list R) :
  dot (map Ropp a) (map Ropp a) = dot a a.
Proof.
  unfold dot. f_equal.
  induction a as [|x a IH]; [reflexivity|].
  cbn [map pointwise_mul]. rewrite IH. f_equal. cbn [fmul arithR]. lra.
Qed.

Lemma exact_diffs_bounded (lo hi : R) (h : list R) :
  Forall (fun x => lo <= x <= hi) h ->
  Forall (fun d => 0 <= d <= hi - lo) (successive_diffs h).
Proof.
  induction h as [|prev [|cur rest] IH]; intros Hf; cbn [successive_diffs];
    try constructor.
  - inversion Hf as [|? ? Hp Hr]; subst. inversion Hr as [|? ? Hc _]; subst.
    cbn [fabs fsub arithR]. split; [apply Rabs_pos|].
    apply Rabs_le. lra.
  - apply IH. now inversion Hf.
Qed.

Lemma exact_sum_bounded (M : R) (l : list R) :
  Forall (fun d => 0 <= d <= M) l ->
  0 <= fold_left fadd l 0 <= INR (length l) * M.
Proof.
  induction l as [|d l IH]; intros Hl.
  - cbn. lra.
  - inversion Hl as [|? ? Hd Hl']; subst. specialize (IH Hl').
    cbn [fold_left]. rewrite exact_fsum_shift.
    change (length (d :: l)) with (Datatypes.S (length l)). rewrite S_INR.
    cbn [fadd arithR] in *. nra.
Qed.

Lemma successive_diffs_length (h : list R) :
  length (successive_diffs h) = (length h - 1)%nat.
Proof.
  induction h as [|prev [|cur rest] IH]; try reflexivity.
  cbn [successive_diffs length] in *. rewrite IH. lia.
Qed.
End ExactFurther.

(** X17. Over the reals, the resonance of a non-empty vector with itself is
    S / (S + 1e-9) with S the sum of its squares: at least 0, strictly
    below 1, and 0 exactly for the zero vector's S = 0. *)
Theorem exact_resonance_self (a : list R) :
  a <> [] ->
  (calculate_resonance a a = dot a a / (dot a a + feps) /\
   0 <= calculate_resonance a a < 1)%R.
Proof.
  intros Hne. rewrite resonance_unfold by (reflexivity || assumption).
  unfold cosine_similarity_eps, norm. cbn [fdiv fadd fmul fsqrt arithR].
  pose proof (exact_dot_nonneg a) as HS. pose proof eps_pos as He.
  rewrite sqrt_sqrt by exact HS. split; [reflexivity|].
  set (S := dot a a) in *.
  assert (Hd : (0 < S + feps)%R) by lra.
  split.
  - apply Rmult_le_pos; [exact HS|]. left. now apply Rinv_0_lt_compat.
  - apply Rmult_lt_reg_r with (S + feps)%R; [exact Hd|].
    unfold Rdiv. rewrite Rmult_assoc, Rinv_l by lra. lra.
Qed.

Lemma exact_resonance_self_witness :
  real_3_4 <> [] /\
  (calculate_resonance real_3_4 real_3_4
   = dot real_3_4 real_3_4 / (dot real_3_4 real_3_4 + feps) /\
   0 <= calculate_resonance real_3_4 real_3_4 < 1)%R.
Proof.
  split; [discriminate|].
  apply (exact_resonance_self real_3_4). discriminate.
Defined.

Section ExactOppositeUnits.
Local Open Scope R_scope.

Lemma exact_resonance_of_opposite_units :
  calculate_resonance real_minus_one real_one = - (1 / (1 + feps)).
Proof.
  unfold real_minus_one, real_one.
  rewrite resonance_unfold by (reflexivity || discriminate).
  unfold cosine_similarity_eps, norm, dot, fsum.
  cbn [pointwise_mul fold_left fdiv fadd fmul fsqrt fzero arithR].
  replace (0 + -1 * -1) with 1 by lra.
  replace (0 + 1 * 1) with 1 by lra.
  rewrite sqrt_1. replace (0 + -1 * 1) with (-1) by lra.
  pose proof eps_pos as He. cbn [feps arithR] in *. field; lra.
Qed.
End ExactOppositeUnits.

(** X18. Over the reals, negating every component of the input embedding
    negates the resonance, and the resonance does take negative values:
    [-1] against [1] gives -1 / (1 + 1e-9).  The score is not confined to
    [0, 1]. *)
Theorem exact_resonance_negate_input :
  (forall a b : list R,
     calculate_resonance (map Ropp a) b = (- calculate_resonance a b)%R) /\
  (exists a b : list R,
     length a = length b /\ (calculate_resonance a b < 0)%R).
Proof.
  split.
  - intros a b. destruct (Nat.eq_dec (length a) (length b)) as [Hab|Hab].
    + destruct a as [|x a].
      * destruct b; [cbn; lra|discriminate].
      * rewrite !resonance_unfold; try discriminate;
          try (rewrite length_map; exact Hab); try exact Hab.
        unfold cosine_similarity_eps, norm.
        rewrite exact_dot_opp_l, exact_dot_opp_opp.
        cbn [fdiv arithR]. unfold Rdiv. lra.
    + unfold calculate_resonance.
      rewrite (resonance_guard_fires a b) by now left.
      rewrite (resonance_guard_fires (map Ropp a) b)
        by (left; rewrite length_map; exact Hab).
      cbn. lra.
  - exists real_minus_one, real_one. split; [reflexivity|].
    rewrite exact_resonance_of_opposite_units.
    pose proof eps_pos as He.
    assert ((0 < 1 / (1 + feps))%R) by (apply Rdiv_lt_0_compat; lra).
    lra.
Qed.

(** X19. Over the reals, a history whose values all lie in [lo, hi] has a
    stability between 1 - (hi - lo) and 1; for resonance values in [-1, 1]
    that is the range [-1, 1]. *)
Theorem exact_delta_i_range (lo hi : R) (h : list R) :
  (lo <= hi)%R ->
  Forall (fun x => (lo <= x <= hi)%R) h ->
  (1 - (hi - lo) <= calculate_delta_i h <= 1)%R.
Proof.
  intros Hlh Hf.
  destruct (Nat.lt_ge_cases (length h) 2) as [Hs|Hl].
  - unfold calculate_delta_i.
    destruct (Nat.ltb_spec (length h) 2); [|lia]. cbn. lra.
  - rewrite delta_loop_sum by exact Hl. unfold stability_formula, fsum.
    pose proof (exact_sum_bounded (hi - lo) _ (exact_diffs_bounded lo hi h Hf))
      as [Hlo Hhi].
    rewrite successive_diffs_length in Hhi.
    cbn [fsub fdiv fone fzero of_size arithR] in *.
    set (S := fold_left fadd (successive_diffs h) 0%R) in *.
    assert (Hn : (0 < INR (length h - 1))%R) by (apply lt_0_INR; lia).
    assert (Hq : (0 <= S / INR (length h - 1) <= hi - lo)%R).
    { split.
      - apply Rmult_le_pos; [exact Hlo|]. left. now apply Rinv_0_lt_compat.
      - apply Rmult_le_reg_r with (INR (length h - 1)); [exact Hn|].
        unfold Rdiv. rewrite Rmult_assoc, Rinv_l by lra. lra. }
    lra.
Qed.

Lemma exact_delta_i_range_witness :
  (-1 <= 1)%R /\
  Forall (fun x => (-1 <= x <= 1)%R) real_history /\
  (1 - (1 - -1) <= calculate_delta_i real_history <= 1)%R.
Proof.
  assert (Hf : Forall (fun x => (-1 <= x <= 1)%R) real_history)
    by (repeat constructor; lra).
  split; [lra|]. split; [exact Hf|].
  apply (exact_delta_i_range (-1) 1 real_history); [lra|exact Hf].
Defined.

Section ExactConstantHistory.
Local Open Scope R_scope.

Lemma exact_diffs_zero_iff_constant (h : list R) :
  Forall (fun d => d = 0) (successive_diffs h) <->
  exists c, h = repeat c (length h).
Proof.
  induction h as [|prev [|cur rest] IH].
  - split; [intros _; now exists 0|constructor].
  - split; [intros _; now exists prev|constructor].
  - cbn [successive_diffs]. split.
    + intros Hz. inversion Hz as [|? ? Hd Hz']; subst.
      apply IH in Hz' as [c Hc]. cbn [length repeat] in Hc.
      injection Hc as Hcur Hrest.
      cbn [fabs fsub arithR] in Hd.
      assert (cur = prev).
      { destruct (Req_dec (cur - prev) 0) as [E|E]; [lra|].
        now apply Rabs_no_R0 in E. }
      exists prev. cbn [length repeat]. rewrite Hrest at 1. congruence.
    + intros [c Hc]. cbn [length repeat] in Hc.
      injection Hc as Hprev Hcur Hrest.
      constructor.
      * cbn [fabs fsub arithR]. rewrite Hprev, Hcur, Rminus_diag.
        apply Rabs_R0.
      * apply IH. exists c. cbn [length repeat]. rewrite Hrest at 1.
        congruence.
Qed.
End ExactConstantHistory.

(** X20. Over the reals, [calculate_delta_i] is at most 1 for every
    history, and equals 1 exactly for the constant histories (the empty
    and the one-element history among them). *)
Theorem exact_delta_i_one_iff_constant (h : list R) :
  (calculate_delta_i h <= 1)%R /\
  (calculate_delta_i h = 1%R <-> exists c, h = repeat c (length h)).
Proof.
  destruct (exact_delta_i_upper_bound h) as [Hle Hiff]. split; [exact Hle|].
  rewrite Hiff, exact_diffs_zero_iff_constant. split.
  - intros [Hc|Hlen]; [exact Hc|].
    destruct h as [|x [|y h]]; [now exists 0%R|now exists x|simpl in Hlen; lia].
  - intros Hc. now left.
Qed.
